(** * timedmap: a map whose entries expire

    A shallow embedding of [timedmap.go] (package [timedmap]) and the
    properties of its operations.

    Modelling decisions, all of them visible in the definitions below:

    - [interface{}] values are [iface V]: [Nil] or a dynamic value of an
      arbitrary payload type [V]. Keys are any type with decidable equality
      that can be enumerated ([Countable K]), as Go map keys are comparable.
    - A [time.Time] is the number of nanoseconds since the zero [Time], a
      [time.Duration] is a number of nanoseconds; both are [Z]. Each reading
      of the clock ([time.Now()]) is an argument of the operation that makes
      it: [now] for the reading in [get], [now'] for the second reading of
      [Set] and of [SetExpire]; a sweep reads the clock once for each key.
    - [*valueWrapper] is a pointer. The map [m] holds pointers into [heap], and
      so does the pool: a field assignment through a pointer ([vw.exp = ...])
      is a write to the heap cell, seen by every holder of the pointer.
    - [sync.Map] is a finite map; [Range] visits the entries of the map as it
      is when the call starts, each key once. Go does not specify the order:
      it is the parameter [order] of the development.
    - [sync.Pool] is a list of idle objects. Which idle object [Get] hands out
      (or none: it may allocate with [New] at any time) is not specified by Go;
      it is the parameter [pick] of the development. The pool drops no
      object by itself.
    - [size] is an [int64]: [atomic.AddInt64] wraps around at 64 bits.
    - A [Callback] is an opaque Go closure, identified by a number; calling it
      is recorded in the trace [fired], together with the key whose removal
      called it and the argument it received. A callback does not call back
      into the map.
    - The operations of the store, a sweep of the cleaner among them, are
      modelled as run one at a time. A goroutine of the cleaner is modelled
      by the messages which its [select] receives. *)

From stdpp Require Import gmap strings list fin_maps.

#[local] Open Scope Z_scope.

(** ** 64-bit counters *)

(** The value of an [int64] after an overflowing operation gave [z]. *)
Definition wrap64 (z : Z) : Z := (z + 2 ^ 63) `mod` 2 ^ 64 - 2 ^ 63.

(** [atomic.AddInt64(&x, delta)]: the new value of [x]. *)
Definition AddInt64 (x delta : Z) : Z := wrap64 (x + delta).

Definition is_int64 (z : Z) : Prop := - 2 ^ 63 <= z < 2 ^ 63.

(** ** Values, time, callbacks *)

Inductive iface (V : Type) : Type :=
  | Nil
  | Dyn (v : V).
Arguments Nil {V}.
Arguments Dyn {V} v.

Definition Time : Type := Z.
Definition Duration : Type := Z.

(** [t.After(u)]: whether the instant [t] is after [u]. *)
Definition After (t u : Time) : bool := bool_decide (u < t).

(** [t.Add(d)]. *)
Definition Add (t : Time) (d : Duration) : Time := t + d.

(** A non-nil func value; [Callback] is a func type, so it has a nil. *)
Definition fn : Type := nat.
Definition Callback : Type := option fn.

(** <<
    type valueWrapper struct {
        val interface{}
        exp time.Time
        cb  Callback
    }
    >> *)
Record valueWrapper (V : Type) : Type := ValueWrapper {
  val : iface V;
  exp : Time;
  cb : Callback;
}.
Arguments ValueWrapper {V} val exp cb.
Arguments val {V} v.
Arguments exp {V} v.
Arguments cb {V} v.

(** [&valueWrapper{}], what the pool's [New] allocates. *)
Definition zero_valueWrapper {V : Type} : valueWrapper V :=
  {| val := Nil; exp := 0; cb := None |}.

#[global] Instance valueWrapper_inhabited {V : Type} : Inhabited (valueWrapper V) :=
  populate zero_valueWrapper.

Definition ptr : Type := nat.

(** One call [f(v)] of a callback, made while the entry of [on_key] was
    removed. *)
Record event (K V : Type) : Type := Fired {
  on_key : K;
  fired_cb : fn;
  arg : iface V;
}.
Arguments Fired {K V} on_key fired_cb arg.
Arguments on_key {K V} e.
Arguments fired_cb {K V} e.
Arguments arg {K V} e.

(** Modelled from the spec: the variable [ErrKeyNotFound], which
    [timedmap.go] uses and another file of the package declares; the spec
    gives exactly one error kind, [KeyNotFound]. *)
Inductive error : Type := ErrKeyNotFound.

(** <<
    type timedMap struct {
        m              *sync.Map
        valuePool      *sync.Pool
        size           int64
        cleanupRunning bool
        cStopCleanup   chan struct{}
    }
    >>
    The store's part of it, with the heap its pointers point into and the
    trace of the callbacks called so far (oldest first). [cleanupRunning] and
    [cStopCleanup] belong to the cleaner, modelled further down: no operation
    of the store reads or writes them. *)
Record timedMap (K : Type) `{Countable K} (V : Type) : Type := TimedMap {
  heap : gmap ptr (valueWrapper V);
  m : gmap K ptr;
  valuePool : list ptr;
  size : Z;
  fired : list (event K V);
}.
Arguments TimedMap {K _ _ V} heap m valuePool size fired.
Arguments heap {K _ _ V} t.
Arguments m {K _ _ V} t.
Arguments valuePool {K _ _ V} t.
Arguments size {K _ _ V} t.
Arguments fired {K _ _ V} t.

(** The order in which [Range] visits the entries of a map: an enumeration
    of its entries, each of them once. *)
Record range_order (K : Type) `{Countable K} : Type := RangeOrder {
  visit : gmap K ptr → list (K * ptr);
  visit_perm : ∀ mm, visit mm ≡ₚ map_to_list mm;
}.
Arguments RangeOrder {K _ _} visit visit_perm.
Arguments visit {K _ _} r mm.
Arguments visit_perm {K _ _} r mm.

Section store.
Context {K : Type} `{Countable K} {V : Type}.

(** The pool's choice in [Get]: the index of the idle object it hands out,
    or [None] (also any index out of range) to allocate a new one. *)
Variable pick : list ptr → option nat.

(** The order of [Range]. *)
Variable order : range_order K.

Abbreviation timedMap := (timedMap K V).
Abbreviation valueWrapper := (valueWrapper V).
Abbreviation iface := (iface V).
Abbreviation event := (event K V).

(** *** Primitives on the fields *)

(** [*p] *)
Definition deref (t : timedMap) (p : ptr) : valueWrapper := heap t !!! p.

(** [*p = vw] *)
Definition write (p : ptr) (vw : valueWrapper) (t : timedMap) : timedMap :=
  {| heap := <[p := vw]> (heap t); m := m t; valuePool := valuePool t;
     size := size t; fired := fired t |}.

(** [t.m.Load(key)] *)
Definition Load (key : K) (t : timedMap) : option ptr := m t !! key.

(** [t.m.Store(key, p)] *)
Definition Store (key : K) (p : ptr) (t : timedMap) : timedMap :=
  {| heap := heap t; m := <[key := p]> (m t); valuePool := valuePool t;
     size := size t; fired := fired t |}.

(** [t.m.Delete(key)] *)
Definition Delete (key : K) (t : timedMap) : timedMap :=
  {| heap := heap t; m := delete key (m t); valuePool := valuePool t;
     size := size t; fired := fired t |}.

(** [t.valuePool.Put(p)] *)
Definition pool_Put (p : ptr) (t : timedMap) : timedMap :=
  {| heap := heap t; m := m t; valuePool := p :: valuePool t;
     size := size t; fired := fired t |}.

(** [t.valuePool.Get()], asserted to be a [*valueWrapper]: an idle object,
    or a new one from [New: func() interface{} { return &valueWrapper{} }]. *)
Definition pool_Get (t : timedMap) : ptr * timedMap :=
  match pick (valuePool t) ≫= λ i, (λ p, (i, p)) <$> valuePool t !! i with
  | Some (i, p) =>
      (p, {| heap := heap t; m := m t; valuePool := delete i (valuePool t);
             size := size t; fired := fired t |})
  | None =>
      let p := fresh (dom (heap t)) in
      (p, {| heap := <[p := zero_valueWrapper]> (heap t); m := m t;
             valuePool := valuePool t; size := size t; fired := fired t |})
  end.

(** [atomic.AddInt64(&t.size, delta)] *)
Definition add_size (delta : Z) (t : timedMap) : timedMap :=
  {| heap := heap t; m := m t; valuePool := valuePool t;
     size := AddInt64 (size t) delta; fired := fired t |}.

(** [f(v)], for the entry of [key]. *)
Definition call (f : fn) (key : K) (v : iface) (t : timedMap) : timedMap :=
  {| heap := heap t; m := m t; valuePool := valuePool t;
     size := size t; fired := fired t ++ [Fired key f v] |}.

(** *** The operations *)

(** [remove(key, vw)] from the point where [vw] is known not to be nil:
    <<
    if vw.cb != nil { vw.cb(vw.val) }
    t.m.Delete(key)
    t.valuePool.Put(vw)
    atomic.AddInt64(&t.size, -1)
    >> *)
Definition remove_vw (key : K) (vw : ptr) (t : timedMap) : timedMap :=
  let t :=
    match cb (deref t vw) with
    | Some f => call f key (val (deref t vw)) t
    | None => t
    end in
  let t := Delete key t in
  let t := pool_Put vw t in
  add_size (-1) t.

(** <<
    func (t *timedMap) get(key interface{}) (vw_ptr, ok bool)
    >>
    [None] is [(nil, false)]. The map only ever holds [*valueWrapper], so
    the type assertion of the source cannot fail. *)
Definition get (now : Time) (key : K) (t : timedMap) : option ptr * timedMap :=
  match Load key t with
  | None => (None, t)
  | Some vw =>
      if After now (exp (deref t vw)) then (None, remove_vw key vw t)
      else (Some vw, t)
  end.

(** <<
    func (t *timedMap) remove(key interface{}, vw *valueWrapper)
    >>
    [vw = None] is the nil pointer. [get] and [remove] call each other in
    the source; [get] only calls [remove] with a pointer that is not nil,
    which is [remove_vw]. *)
Definition remove (now : Time) (key : K) (vw : option ptr) (t : timedMap) : timedMap :=
  match vw with
  | Some vw => remove_vw key vw t
  | None =>
      match get now key t with
      | (None, t) => t
      | (Some vw, t) => remove_vw key vw t
      end
  end.

(** The callback which [Set] stores, from its variadic argument [cb]:
    <<
    if len(cb) > 0 { vw.cb = cb[0] } else { vw.cb = nil }
    >> *)
Definition cb_arg (cbs : list Callback) : Callback :=
  match cbs with
  | c :: _ => c
  | [] => None
  end.

(** <<
    func (t *timedMap) Set(key, value interface{}, expiresAfter time.Duration, cb ...Callback)
    >> *)
Definition Set_ (now now' : Time) (key : K) (value : iface)
    (expiresAfter : Duration) (cbs : list Callback) (t : timedMap) : timedMap :=
  let '(vw, t) :=
    match get now key t with
    | (Some vw, t) => (vw, t)
    | (None, t) =>
        let '(vw, t) := pool_Get t in
        (vw, add_size 1 t)
    end in
  let t := write vw {| val := value; exp := Add now' expiresAfter;
                       cb := cb_arg cbs |} t in
  Store key vw t.

(** <<
    func (t *timedMap) GetValue(key interface{}) (v interface{})
    >> *)
Definition GetValue (now : Time) (key : K) (t : timedMap) : iface * timedMap :=
  match get now key t with
  | (None, t) => (Nil, t)
  | (Some vw, t) => (val (deref t vw), t)
  end.

(** <<
    func (t *timedMap) GetExpires(key interface{}) (exp time.Time, err error)
    >>
    [None] is the nil error; the zero [Time] is 0. *)
Definition GetExpires (now : Time) (key : K) (t : timedMap)
    : (Time * option error) * timedMap :=
  match get now key t with
  | (None, t) => ((0, Some ErrKeyNotFound), t)
  | (Some vw, t) => ((exp (deref t vw), None), t)
  end.

(** <<
    func (t *timedMap) SetExpire(key interface{}, d time.Duration) (err error)
    >> *)
Definition SetExpire (now now' : Time) (key : K) (d : Duration) (t : timedMap)
    : option error * timedMap :=
  match get now key t with
  | (None, t) => (Some ErrKeyNotFound, t)
  | (Some vw, t) =>
      let old := deref t vw in
      (None, write vw {| val := val old; exp := Add now' d; cb := cb old |} t)
  end.

(** <<
    func (t *timedMap) Refresh(key interface{}, d time.Duration) (err error)
    >> *)
Definition Refresh (now : Time) (key : K) (d : Duration) (t : timedMap)
    : option error * timedMap :=
  match get now key t with
  | (None, t) => (Some ErrKeyNotFound, t)
  | (Some vw, t) =>
      let old := deref t vw in
      (None, write vw {| val := val old; exp := Add (exp old) d; cb := cb old |} t)
  end.

(** <<
    func (t *timedMap) Contains(key interface{}) (ok bool)
    >> *)
Definition Contains (now : Time) (key : K) (t : timedMap) : bool * timedMap :=
  match get now key t with
  | (None, t) => (false, t)
  | (Some _, t) => (true, t)
  end.

(** <<
    func (t *timedMap) Remove(key interface{}) { t.remove(key, nil) }
    >> *)
Definition Remove (now : Time) (key : K) (t : timedMap) : timedMap :=
  remove now key None t.

(** [t.m.Range(f)] over the entries [l], [f] always returning [true]. *)
Definition Range (f : K → ptr → timedMap → timedMap) (l : list (K * ptr))
    (t : timedMap) : timedMap :=
  foldl (λ t kv, f kv.1 kv.2 t) t l.

(** <<
    func (t *timedMap) Flush()
    >> *)
Definition Flush (t : timedMap) : timedMap :=
  Range (λ key value t, remove_vw key value t) (visit order (m t)) t.

(** <<
    func (t *timedMap) Size() int { return int(t.size) }
    >>
    ([int] has 64 bits.) *)
Definition Size (t : timedMap) : Z := size t.

(** <<
    func (t *timedMap) cleanup()
    >> *)
Definition cleanup (now : K → Time) (t : timedMap) : timedMap :=
  Range (λ key _ t, (get (now key) key t).2) (visit order (m t)) t.

(** The store of [New], before any operation. *)
Definition New_store : timedMap :=
  {| heap := ∅; m := ∅; valuePool := []; size := 0; fired := [] |}.

(** *** Sequences of operations *)

(** A call of the interface [Map], or one sweep of the cleaner
    ([go t.cleanup()], on a tick). *)
Inductive op : Type :=
  | OpSet (now now' : Time) (key : K) (value : iface) (expiresAfter : Duration)
      (cbs : list Callback)
  | OpGetValue (now : Time) (key : K)
  | OpGetExpires (now : Time) (key : K)
  | OpSetExpire (now now' : Time) (key : K) (d : Duration)
  | OpRefresh (now : Time) (key : K) (d : Duration)
  | OpContains (now : Time) (key : K)
  | OpRemove (now : Time) (key : K)
  | OpFlush
  | OpSize
  | OpCleanup (now : K → Time).

Definition step (o : op) (t : timedMap) : timedMap :=
  match o with
  | OpSet now now' key value expiresAfter cbs =>
      Set_ now now' key value expiresAfter cbs t
  | OpGetValue now key => (GetValue now key t).2
  | OpGetExpires now key => (GetExpires now key t).2
  | OpSetExpire now now' key d => (SetExpire now now' key d t).2
  | OpRefresh now key d => (Refresh now key d t).2
  | OpContains now key => (Contains now key t).2
  | OpRemove now key => Remove now key t
  | OpFlush => Flush t
  | OpSize => t
  | OpCleanup now => cleanup now t
  end.

Definition run (ops : list op) (t : timedMap) : timedMap :=
  foldl (λ t o, step o t) t ops.

(** *** Vocabulary of the properties *)

(** The entry the map holds for [key]: present, whether expired or not. *)
Definition entry (t : timedMap) (key : K) : option valueWrapper :=
  deref t <$> m t !! key.

(** The number of entries present in the map. *)
Definition entries (t : timedMap) : Z := Z.of_nat (base.size (m t)).

(** An entry is expired at [now] when [time.Now().After(vw.exp)]. *)
Definition expired (now : Time) (vw : valueWrapper) : Prop := exp vw < now.
Definition unexpired (now : Time) (vw : valueWrapper) : Prop := now <= exp vw.

#[global] Instance expired_dec (now : Time) (vw : valueWrapper) :
  Decision (expired now vw).
Proof. unfold expired. apply _. Defined.

(** The entry [kp] of the map is unexpired when the sweep visits it. *)
Definition kept (now : K → Time) (t : timedMap) (kp : K * ptr) : Prop :=
  ¬ expired (now kp.1) (deref t kp.2).

(** The key has an entry and it is unexpired at [now]. *)
Definition live (now : Time) (t : timedMap) (key : K) : Prop :=
  ∃ vw, entry t key = Some vw ∧ unexpired now vw.

(** The calls which the removal of the entry [vw] of [key] makes: one call
    of its callback on its value when it has a callback, none otherwise. *)
Definition callback_events (key : K) (vw : valueWrapper) : list event :=
  match cb vw with
  | Some f => [Fired key f (val vw)]
  | None => []
  end.

(** What [Set] does after [get] found nothing in [t]: it takes an object
    from the pool, counts the new entry, assigns the fields [vw] and stores
    the object. *)
Definition Set_new (key : K) (vw : valueWrapper) (t : timedMap) : timedMap :=
  let '(q, t) := pool_Get t in
  Store key q (write q vw (add_size 1 t)).

(** The calls made when the entries [l] of [t] are removed in turn. *)
Definition removal_events (t : timedMap) (l : list (K * ptr)) : list event :=
  l ≫= λ kv, callback_events kv.1 (deref t kv.2).

(** The calls made for the entry of [key] within a trace. *)
Definition events_of (key : K) (tr : list event) : list event :=
  filter (λ e, on_key e = key) tr.

(** The counter is the number of entries, as an [int64]. *)
Definition size_ok (t : timedMap) : Prop := size t = wrap64 (entries t).

(** Every object idle in the pool is reset: its fields hold zero values. *)
Definition pool_reset (t : timedMap) : Prop :=
  ∀ p, p ∈ valuePool t → deref t p = zero_valueWrapper.

(** No pointer is shared: the pointers of the map and of the pool are
    allocated, each key has a pointer of its own, and an idle object of the
    pool is neither in the map nor twice in the pool. *)
Record separated (t : timedMap) : Prop := Separated {
  sep_map_alloc : ∀ key p, m t !! key = Some p → p ∈ dom (heap t);
  sep_pool_alloc : ∀ p, p ∈ valuePool t → p ∈ dom (heap t);
  sep_pool_nodup : NoDup (valuePool t);
  sep_pool_map : ∀ key p, m t !! key = Some p → p ∉ valuePool t;
  sep_map_inj : ∀ k1 k2 p, m t !! k1 = Some p → m t !! k2 = Some p → k1 = k2;
}.

(** *** Vocabulary of the further properties *)

(** The key which an operation is called with; [None] for the operations on
    the whole map. *)
Definition op_key (o : op) : option K :=
  match o with
  | OpSet _ _ key _ _ _ => Some key
  | OpGetValue _ key => Some key
  | OpGetExpires _ key => Some key
  | OpSetExpire _ _ key _ => Some key
  | OpRefresh _ key _ => Some key
  | OpContains _ key => Some key
  | OpRemove _ key => Some key
  | OpFlush => None
  | OpSize => None
  | OpCleanup _ => None
  end.

(** The operation is a call of [Set]. *)
Definition is_Set (o : op) : bool :=
  match o with
  | OpSet _ _ _ _ _ _ => true
  | _ => false
  end.

(** The operation is a call of [Set] with [key]. *)
Definition sets_key (key : K) (o : op) : Prop :=
  is_Set o = true ∧ op_key o = Some key.

(** The number of calls of [Set] among [ops]. *)
Definition Set_calls (ops : list op) : Z :=
  Z.of_nat (length (filter (λ o, is_Set o = true) ops)).

(** The number of calls made so far for the entries of [key]. *)
Definition calls (key : K) (t : timedMap) : Z :=
  Z.of_nat (length (events_of key (fired t))).

(** 1 when [key] has an entry with a callback, which its removal will call,
    0 otherwise. *)
Definition pending (key : K) (t : timedMap) : Z :=
  match entry t key with
  | Some vw =>
      match cb vw with
      | Some _ => 1
      | None => 0
      end
  | None => 0
  end.

(** The operation is a call of [Set] with [key] and a callback. *)
Definition sets_callback (key : K) (o : op) : Prop :=
  match o with
  | OpSet _ _ k _ _ cbs => k = key ∧ is_Some (cb_arg cbs)
  | _ => False
  end.

#[global] Instance sets_callback_dec (key : K) (o : op) :
  Decision (sets_callback key o).
Proof. destruct o; simpl; apply _. Defined.

(** The number of calls of [Set] with [key] and a callback among [ops]. *)
Definition callback_Sets (key : K) (ops : list op) : Z :=
  Z.of_nat (length (filter (sets_callback key) ops)).

(** The call [e] is the call of the callback given to the call [o] of [Set],
    for the key and on the value given to it. *)
Definition set_by (e : event) (o : op) : Prop :=
  match o with
  | OpSet _ _ k v _ cbs =>
      k = on_key e ∧ v = arg e ∧ cb_arg cbs = Some (fired_cb e)
  | _ => False
  end.

(** The calls made so far, and the calls which the removal of the present
    entries will make, are calls of a callback given to a [Set] among
    [ops], for its key and on its value. *)
Definition all_set_by (ops : list op) (t : timedMap) : Prop :=
  (∀ e, e ∈ fired t → ∃ o, o ∈ ops ∧ set_by e o) ∧
  (∀ key vw f, entry t key = Some vw → cb vw = Some f →
     ∃ o, o ∈ ops ∧ set_by (Fired key f (val vw)) o).

(** Every allocated object is the entry of a key or idle in the pool. *)
Definition accounted (t : timedMap) : Prop :=
  ∀ p, p ∈ dom (heap t) → (∃ key, m t !! key = Some p) ∨ p ∈ valuePool t.

(** The calls which a sweep makes for the entries [l] of [t]: those of the
    entries that are expired when the sweep visits them. *)
Definition sweep_events (now : K → Time) (t : timedMap) (l : list (K * ptr))
    : list event :=
  removal_events t (filter (λ kp, ¬ kept now t kp) l).

End store.

(** ** The cleaner *)

(** How a statement ends: it completes, or an unlabeled [break] is on its way
    to the innermost enclosing [for], [switch] or [select]. *)
Inductive completion : Type := Normal | Break.

(** What the [select] of [cleanupCycle] receives: a tick from [ticker.C], or
    the signal of [StopCleaner] from [t.cStopCleanup]. *)
Inductive message : Type := Tick | Stop.

(** A goroutine running [cleanupCycle]: its ticker, the sweeps it has started
    ([go t.cleanup()]), and whether it has returned. *)
Record cycle : Type := Cycle {
  ticker_running : bool;
  cleanups : nat;
  returned : bool;
}.

(** [ticker := time.NewTicker(interval)], at the start of [cleanupCycle]. *)
Definition new_cycle : cycle :=
  {| ticker_running := true; cleanups := 0; returned := false |}.

(** [case <-ticker.C: go t.cleanup()]. *)
Definition case_tick (c : cycle) : cycle * completion :=
  ({| ticker_running := ticker_running c; cleanups := S (cleanups c);
      returned := returned c |}, Normal).

(** [case <-t.cStopCleanup: ticker.Stop(); break]. *)
Definition case_stop (c : cycle) : cycle * completion :=
  ({| ticker_running := false; cleanups := cleanups c; returned := returned c |},
   Break).

(** Whether the [select] can receive [msg]: a stopped ticker sends no tick. *)
Definition receivable (msg : message) (c : cycle) : bool :=
  match msg with
  | Tick => ticker_running c
  | Stop => true
  end.

(** The [select] statement, receiving [msg]. A [break] of one of its cases
    ends the [select] statement itself, which then completes. *)
Definition select_stmt (msg : message) (c : cycle) : cycle * completion :=
  let '(c, r) :=
    match msg with
    | Tick => case_tick c
    | Stop => case_stop c
    end in
  (c, match r with
      | Break => Normal
      | Normal => Normal
      end).

(** One turn of [for { select { ... } }]: the loop is left, and the function
    returns, when the body ends in a [break] of the loop. *)
Definition for_turn (msg : message) (c : cycle) : cycle :=
  match select_stmt msg c with
  | (c, Normal) => c
  | (c, Break) =>
      {| ticker_running := ticker_running c; cleanups := cleanups c;
         returned := true |}
  end.

(** The cleaner's part of [timedMap], with the goroutines that run
    [cleanupCycle]. *)
Record cleaner : Type := Cleaner {
  cleanupRunning : bool;
  cycles : list cycle;
}.

(** The goroutine [i] receives [msg] in its [select] and runs the case at
    once ([None]: it receives nothing, because it has returned or because the
    message cannot come). When [cleanupCycle] returns, its deferred function
    runs: [t.cleanupRunning = false]. *)
Definition deliver (i : nat) (msg : message) (s : cleaner) : option cleaner :=
  match cycles s !! i with
  | Some c =>
      if returned c || negb (receivable msg c) then None
      else
        let c := for_turn msg c in
        Some {| cleanupRunning := if returned c then false else cleanupRunning s;
                cycles := <[i := c]> (cycles s) |}
  | None => None
  end.

(** <<
    func (t *timedMap) StopCleaner() { t.cStopCleanup <- struct{}{} }
    >>
    The channel is unbuffered: the send returns once a goroutine, [i], has
    received the signal in its [select]; [None] when no such goroutine
    receives (the send blocks). *)
Definition StopCleaner (i : nat) (s : cleaner) : option cleaner :=
  deliver i Stop s.

(** <<
    func (t *timedMap) StartCleaner(interval time.Duration)
    >>
    [i] is the goroutine that receives the signal of [StopCleaner]. *)
Definition StartCleaner (i : nat) (s : cleaner) : option cleaner :=
  s ← (if cleanupRunning s then StopCleaner i s else Some s);
  Some {| cleanupRunning := true; cycles := cycles s ++ [new_cycle] |}.

(** The cleaner of [New]: [t.StartCleaner(cleanupInterval)] on a new map. *)
Definition New_cleaner : option cleaner :=
  StartCleaner 0 {| cleanupRunning := false; cycles := [] |}.

(** The ticks which the goroutine [i] receives after the state [s]: each one
    starts a sweep. *)
Definition ticks_after (i : nat) (s : cleaner) : Prop :=
  is_Some (deliver i Tick s).

(** What happens to the cleaner: a call of [StartCleaner] or [StopCleaner]
    whose signal the goroutine [i] receives, or a tick which the goroutine
    [i] receives. *)
Inductive cleaner_op : Type :=
  | CStart (i : nat)
  | CStop (i : nat)
  | CTick (i : nat).

Definition cleaner_step (o : cleaner_op) (s : cleaner) : option cleaner :=
  match o with
  | CStart i => StartCleaner i s
  | CStop i => StopCleaner i s
  | CTick i => deliver i Tick s
  end.

(** The operations in turn; [None] when one of them does not take place (a
    send that blocks, a tick that cannot come). *)
Fixpoint cleaner_run (ops : list cleaner_op) (s : cleaner) : option cleaner :=
  match ops with
  | [] => Some s
  | o :: ops => cleaner_step o s ≫= cleaner_run ops
  end.

(** The operation is a call of [StartCleaner]. *)
Definition is_CStart (o : cleaner_op) : bool :=
  match o with
  | CStart _ => true
  | _ => false
  end.

(** The number of calls of [StartCleaner] among [ops]. *)
Definition Start_calls (ops : list cleaner_op) : nat :=
  length (filter (λ o, is_CStart o = true) ops).

(** The number of goroutines whose ticker runs. *)
Definition running_tickers (s : cleaner) : nat :=
  length (filter (λ c, ticker_running c = true) (cycles s)).

(** No goroutine of the cleaner has returned, and [cleanupRunning] is set. *)
Definition all_cycling (s : cleaner) : Prop :=
  cleanupRunning s = true ∧ Forall (λ c, returned c = false) (cycles s).

(** ** Example states *)

(** A pool that hands out the idle object returned last. *)
Definition pick_first : list ptr → option nat := λ _, Some 0%nat.

(** [Range] in the order of [map_to_list]. *)
Definition in_map_order : range_order string :=
  {| visit := map_to_list; visit_perm := λ mm, reflexivity (map_to_list mm) |}.

(** [Set("a", 1, 10ns, f7)] at time 0 on a new map. *)
Definition one_entry : timedMap string Z :=
  Set_ pick_first 0 0 "a" (Dyn 1) 10 [Some 7%nat] New_store.

(** Then [Set("b", 2, 30ns)], without a callback, at time 1. *)
Definition two_entries : timedMap string Z :=
  Set_ pick_first 1 1 "b" (Dyn 2) 30 [] one_entry.

(** [Set("n", nil, 10ns)] at time 0 on a new map. *)
Definition nil_entry : timedMap string Z :=
  Set_ pick_first 0 0 "n" Nil 10 [] New_store.

(** [Set("a", 1, 10ns, f7)] at time 0, then [Remove("a")] at time 5. *)
Definition set_then_remove : list (@op string Z) :=
  [OpSet 0 0 "a" (Dyn 1) 10 [Some 7%nat]; OpRemove 5 "a"].

(** The cleaner after [New] and one [StopCleaner()]. *)
Definition stopped_cleaner : option cleaner :=
  New_cleaner ≫= StopCleaner 0.

(** [Set("a", 1, 10ns, f7)] at time 0, [Set("b", 2, 30ns)] at time 1, a
    lookup of "a" at time 20, when its entry is expired, and a sweep at
    time 25. *)
Definition sets_and_reads : list (@op string Z) :=
  [OpSet 0 0 "a" (Dyn 1) 10 [Some 7%nat]; OpSet 1 1 "b" (Dyn 2) 30 [];
   OpGetValue 20 "a"; OpCleanup (λ _, 25)].

(** After [New]: [StartCleaner] twice, the signal going to the first
    goroutine both times, then a tick of the third goroutine. *)
Definition restarts : list cleaner_op := [CStart 0; CStart 0; CTick 2].

(** * Properties *)

(** ** 64-bit counters *)

Lemma wrap64_small (z : Z) : is_int64 z → wrap64 z = z.
Proof.
  unfold is_int64, wrap64. intros Hz.
  rewrite Z.mod_small; lia.
Qed.

Lemma wrap64_range (z : Z) : is_int64 (wrap64 z).
Proof.
  unfold is_int64, wrap64.
  pose proof (Z.mod_pos_bound (z + 2 ^ 63) (2 ^ 64)). lia.
Qed.

Lemma wrap64_add_l (a b : Z) : wrap64 (wrap64 a + b) = wrap64 (a + b).
Proof.
  unfold wrap64.
  replace ((a + 2 ^ 63) `mod` 2 ^ 64 - 2 ^ 63 + b + 2 ^ 63)
    with ((a + 2 ^ 63) `mod` 2 ^ 64 + b) by lia.
  rewrite Zplus_mod_idemp_l. do 2 f_equal. lia.
Qed.

Lemma AddInt64_wrap64 (a b : Z) : AddInt64 (wrap64 a) b = wrap64 (a + b).
Proof. apply wrap64_add_l. Qed.

Lemma AddInt64_exact (x delta : Z) : is_int64 (x + delta) → AddInt64 x delta = x + delta.
Proof. apply wrap64_small. Qed.

Lemma AddInt64_undo (x : Z) : is_int64 x → AddInt64 (AddInt64 x (-1)) 1 = x.
Proof.
  intros Hx. unfold AddInt64. rewrite wrap64_add_l.
  replace (x + -1 + 1) with x by lia. by apply wrap64_small.
Qed.

Section facts.
Context {K : Type} `{Countable K} {V : Type}.
Variable pick : list ptr → option nat.
Variable order : range_order K.

Implicit Types (t : timedMap K V) (key : K) (vw : valueWrapper V).
Implicit Types (p : ptr) (now : Time) (d : Duration) (value : iface V).
Implicit Types (nows : K → Time).
Implicit Types (o : @op K V) (ops : list (@op K V)).

(** *** What [remove_vw] changes *)

Lemma remove_vw_m key p t : m (remove_vw key p t) = delete key (m t).
Proof. unfold remove_vw. by destruct (cb _). Qed.

Lemma remove_vw_heap key p t : heap (remove_vw key p t) = heap t.
Proof. unfold remove_vw. by destruct (cb _). Qed.

Lemma remove_vw_deref key p t q : deref (remove_vw key p t) q = deref t q.
Proof. unfold deref. by rewrite remove_vw_heap. Qed.

Lemma remove_vw_valuePool key p t :
  valuePool (remove_vw key p t) = p :: valuePool t.
Proof. unfold remove_vw. by destruct (cb _). Qed.

Lemma remove_vw_size key p t :
  size (remove_vw key p t) = AddInt64 (size t) (-1).
Proof. unfold remove_vw. by destruct (cb _). Qed.

Lemma remove_vw_fired key p t :
  fired (remove_vw key p t) = fired t ++ callback_events key (deref t p).
Proof.
  unfold remove_vw, callback_events.
  destruct (cb _); simpl; [done | by rewrite app_nil_r].
Qed.

Lemma remove_vw_entry key p t : entry (remove_vw key p t) key = None.
Proof. unfold entry. by rewrite remove_vw_m, lookup_delete_eq. Qed.

Lemma remove_vw_entry_ne key p t key' :
  key ≠ key' → entry (remove_vw key p t) key' = entry t key'.
Proof.
  intros Hne. unfold entry. rewrite remove_vw_m, lookup_delete_ne by done.
  destruct (m t !! key'); simpl; [|done]. by rewrite remove_vw_deref.
Qed.

(** *** The three cases of [get] *)

Lemma entry_Some t key vw :
  entry t key = Some vw ↔ ∃ p, m t !! key = Some p ∧ deref t p = vw.
Proof.
  unfold entry. destruct (m t !! key) as [p|]; simpl.
  - split; [intros [= <-]; by exists p | by intros (q & [= <-] & <-)].
  - split; [done | by intros (q & ? & _)].
Qed.

Lemma entry_None t key : entry t key = None ↔ m t !! key = None.
Proof. unfold entry. by destruct (m t !! key). Qed.

Lemma get_absent now key t : m t !! key = None → get now key t = (None, t).
Proof. intros Hm. unfold get, Load. by rewrite Hm. Qed.

Lemma get_unexpired now key t p :
  m t !! key = Some p → unexpired now (deref t p) →
  get now key t = (Some p, t).
Proof.
  intros Hm Hv. unfold get, Load, After. rewrite Hm.
  rewrite bool_decide_eq_false_2; [done | unfold unexpired in Hv; lia].
Qed.

Lemma get_expired now key t p :
  m t !! key = Some p → expired now (deref t p) →
  get now key t = (None, remove_vw key p t).
Proof.
  intros Hm Hv. unfold get, Load, After. rewrite Hm.
  by rewrite bool_decide_eq_true_2.
Qed.

Lemma expired_or_not now vw : expired now vw ∨ unexpired now vw.
Proof. unfold expired, unexpired. lia. Qed.

Lemma expired_unexpired now vw : expired now vw → unexpired now vw → False.
Proof. unfold expired, unexpired. lia. Qed.

(** What [get] returns is in the map and unexpired, and then [get] changed
    nothing. *)
Lemma get_Some now key t p t' :
  get now key t = (Some p, t') →
  t' = t ∧ m t !! key = Some p ∧ unexpired now (deref t p).
Proof.
  unfold get, Load, After. destruct (m t !! key) as [q|]; [|done].
  case_bool_decide as Hlt; [done|]. intros [= <- <-].
  repeat split. unfold unexpired. lia.
Qed.

Lemma get_None now key t t' :
  get now key t = (None, t') →
  (m t !! key = None ∧ t' = t) ∨
  (∃ p, m t !! key = Some p ∧ expired now (deref t p) ∧ t' = remove_vw key p t).
Proof.
  unfold get, Load, After. destruct (m t !! key) as [q|]; [|naive_solver].
  case_bool_decide as Hlt; [|done]. intros [= <-]. right. eauto.
Qed.

(** *** Lookups *)

Lemma GetValue_get now key t :
  GetValue now key t =
    (match (get now key t).1 with
     | Some p => val (deref t p)
     | None => Nil
     end, (get now key t).2).
Proof.
  unfold GetValue. destruct (get now key t) as [[p|] t'] eqn:Hget; [|done].
  by apply get_Some in Hget as (-> & _ & _).
Qed.

Lemma Contains_get now key t :
  Contains now key t = (bool_decide (is_Some (get now key t).1), (get now key t).2).
Proof. unfold Contains. by destruct (get now key t) as [[p|] t']. Qed.

(** C1. [GetValue(key)] returns the stored value when the map holds an
    unexpired entry for the key and changes nothing then; it returns nil
    when the key has no entry (nothing changes) and when the entry is
    expired, in which case the entry is deleted from the map and its
    callback, when set, is called on its value. [get] never returns an
    expired entry. [Contains(key)] leaves the same state as [GetValue(key)]
    and is true exactly when [GetValue] returns the value of an unexpired
    entry. *)
Theorem GetValue_lazy_expiry now key t :
  (∀ vw, entry t key = Some vw → unexpired now vw →
     GetValue now key t = (val vw, t)) ∧
  (entry t key = None → GetValue now key t = (Nil, t)) ∧
  (∀ vw, entry t key = Some vw → expired now vw →
     ∃ t', GetValue now key t = (Nil, t') ∧
       entry t' key = None ∧
       m t' = delete key (m t) ∧
       fired t' = fired t ++ callback_events key vw) ∧
  (∀ p t', get now key t = (Some p, t') → ¬ expired now (deref t' p)) ∧
  (Contains now key t).2 = (GetValue now key t).2 ∧
  ((Contains now key t).1 = true ↔
     ∃ vw, entry t key = Some vw ∧ unexpired now vw ∧
       (GetValue now key t).1 = val vw).
Proof.
  split_and!.
  - intros vw (p & Hm & <-)%entry_Some Hv.
    by rewrite GetValue_get, (get_unexpired _ _ _ p).
  - intros Hm%entry_None. by rewrite GetValue_get, get_absent.
  - intros vw (p & Hm & <-)%entry_Some Hv.
    exists (remove_vw key p t).
    rewrite GetValue_get, (get_expired _ _ _ p) by done.
    split_and!; [done | apply remove_vw_entry | apply remove_vw_m
                | apply remove_vw_fired].
  - intros p t' (-> & _ & Hv)%get_Some Hexp.
    by eapply expired_unexpired.
  - by rewrite Contains_get, GetValue_get.
  - rewrite Contains_get, GetValue_get. simpl.
    rewrite bool_decide_eq_true. split.
    + intros [p Hp]. destruct (get now key t) as [r t'] eqn:Hget.
      simpl in Hp. subst r.
      apply get_Some in Hget as (-> & Hm & Hv).
      exists (deref t p). split_and!; [|done|done].
      apply entry_Some. eauto.
    + intros (vw & (p & Hm & <-)%entry_Some & Hv & _).
      rewrite (get_unexpired _ _ _ p) by done. by eexists.
Qed.

(** C10. When the unexpired entry of a key stores nil, [GetValue(key)]
    returns nil, which is also what it returns for a key without an
    entry and for a key whose entry is expired, while [Contains(key)]
    is true for the key that stores nil and false for the other two. *)
Theorem GetValue_nil_value now key t vw :
  entry t key = Some vw → unexpired now vw → val vw = Nil →
  (GetValue now key t).1 = Nil ∧
  (Contains now key t).1 = true ∧
  (∀ key', entry t key' = None →
     (GetValue now key' t).1 = Nil ∧ (Contains now key' t).1 = false) ∧
  (∀ key' vw', entry t key' = Some vw' → expired now vw' →
     (GetValue now key' t).1 = Nil ∧ (Contains now key' t).1 = false).
Proof.
  intros (p & Hm & <-)%entry_Some Hv Hnil. split_and!.
  - by rewrite GetValue_get, (get_unexpired _ _ _ p).
  - by rewrite Contains_get, (get_unexpired _ _ _ p).
  - intros key' Hm'%entry_None.
    by rewrite GetValue_get, Contains_get, get_absent.
  - intros key' vw' (p' & Hm' & <-)%entry_Some Hexp.
    by rewrite GetValue_get, Contains_get, (get_expired _ _ _ p').
Qed.

Lemma get_live now key t : is_Some (get now key t).1 ↔ live now t key.
Proof.
  split.
  - intros [p Hp]. destruct (get now key t) as [r t'] eqn:Hget.
    simpl in Hp. subst r. apply get_Some in Hget as (-> & Hm & Hv).
    exists (deref t p). split; [|done]. apply entry_Some. eauto.
  - intros (vw & (p & Hm & <-)%entry_Some & Hv).
    rewrite (get_unexpired _ _ _ p) by done. by eexists.
Qed.

Lemma get_not_live now key t : (get now key t).1 = None ↔ ¬ live now t key.
Proof.
  rewrite <-get_live, <-eq_None_not_Some. done.
Qed.

(** *** Removal *)

Lemma Remove_present now key t p :
  m t !! key = Some p → Remove now key t = remove_vw key p t.
Proof.
  intros Hm. unfold Remove, remove.
  destruct (expired_or_not now (deref t p)).
  - by rewrite (get_expired _ _ _ p).
  - by rewrite (get_unexpired _ _ _ p).
Qed.

Lemma Remove_absent now key t : m t !! key = None → Remove now key t = t.
Proof. intros Hm. unfold Remove, remove. by rewrite get_absent. Qed.

(** C5. [Remove(key)] changes nothing when the key has no entry. When the
    key has an entry, expired or not, [Remove(key)] deletes it and leaves
    the other entries as they are, takes 1 from the counter (an [int64]
    subtraction: exactly [Size() - 1] unless the counter is at the least
    [int64]), and calls the entry's callback once on its value when it has
    one and calls nothing otherwise. *)
Theorem Remove_present_or_absent now key t :
  (entry t key = None → Remove now key t = t) ∧
  (∀ vw, entry t key = Some vw →
     entry (Remove now key t) key = None ∧
     m (Remove now key t) = delete key (m t) ∧
     (∀ key', key ≠ key' → entry (Remove now key t) key' = entry t key') ∧
     Size (Remove now key t) = AddInt64 (Size t) (-1) ∧
     (- 2 ^ 63 < Size t < 2 ^ 63 → Size (Remove now key t) = Size t - 1) ∧
     (∀ f, cb vw = Some f →
        fired (Remove now key t) = fired t ++ [Fired key f (val vw)]) ∧
     (cb vw = None → fired (Remove now key t) = fired t)).
Proof.
  split.
  - intros Hm%entry_None. by apply Remove_absent.
  - intros vw (p & Hm & <-)%entry_Some.
    rewrite (Remove_present _ _ _ p) by done. unfold Size.
    rewrite remove_vw_size, remove_vw_fired. unfold callback_events.
    split_and!.
    + apply remove_vw_entry.
    + apply remove_vw_m.
    + intros key' Hne. by apply remove_vw_entry_ne.
    + done.
    + intros Hs. apply AddInt64_exact. unfold is_int64. lia.
    + by intros f ->.
    + intros ->. by rewrite app_nil_r.
Qed.

(** *** Changing the expiry *)

Lemma write_deref p vw t : deref (write p vw t) p = vw.
Proof. unfold deref, write. simpl. by rewrite lookup_total_insert_eq. Qed.

Lemma write_entry key p vw t :
  m t !! key = Some p → entry (write p vw t) key = Some vw.
Proof.
  intros Hm. unfold entry. simpl. rewrite Hm. simpl. by rewrite write_deref.
Qed.

(** C6. On a key with an unexpired entry, [Refresh(key, d)] succeeds and
    sets the expiry of the entry to its previous expiry plus [d], whatever
    the time of the call is; its value and callback stay. [d] may be
    negative, and then the new expiry is earlier than the previous one.
    Nothing else changes: the map, the counter, the pool and the trace of
    the callbacks are as before. *)
Theorem Refresh_adds_to_expiry now key d t vw :
  entry t key = Some vw → unexpired now vw →
  ∃ t', Refresh now key d t = (None, t') ∧
    entry t' key = Some {| val := val vw; exp := exp vw + d; cb := cb vw |} ∧
    (d < 0 → ∃ vw', entry t' key = Some vw' ∧ exp vw' < exp vw) ∧
    m t' = m t ∧ size t' = size t ∧ valuePool t' = valuePool t ∧
    fired t' = fired t.
Proof.
  intros (p & Hm & <-)%entry_Some Hv.
  unfold Refresh. rewrite (get_unexpired _ _ _ p) by done.
  eexists. split; [done|].
  rewrite (write_entry key) by done. split_and!; try done.
  intros Hd. eexists. split; [done|]. unfold Add. simpl. lia.
Qed.

(** *** Errors *)

(** C8 (as amended). [ErrKeyNotFound] is the only error. [GetExpires],
    [SetExpire] and [Refresh] return it exactly when the key has no
    unexpired entry, and return the nil error exactly when it has one
    ([GetExpires] then gives the expiry of the entry). For a key without an
    unexpired entry [GetValue] returns nil and [Contains] returns false;
    [Remove], which returns nothing in any case, does for such a key what
    the lookup does and no more: it changes nothing when the key has no
    entry, and when the entry is expired it deletes it, which calls its
    callback. *)
Theorem ErrKeyNotFound_exactly now now' key d t :
  (∀ e : error, e = ErrKeyNotFound) ∧
  ((GetExpires now key t).1.2 = Some ErrKeyNotFound ↔ ¬ live now t key) ∧
  ((SetExpire now now' key d t).1 = Some ErrKeyNotFound ↔ ¬ live now t key) ∧
  ((Refresh now key d t).1 = Some ErrKeyNotFound ↔ ¬ live now t key) ∧
  ((GetExpires now key t).1.2 = None ↔ live now t key) ∧
  ((SetExpire now now' key d t).1 = None ↔ live now t key) ∧
  ((Refresh now key d t).1 = None ↔ live now t key) ∧
  (∀ vw, entry t key = Some vw → unexpired now vw →
     (GetExpires now key t).1 = (exp vw, None)) ∧
  (¬ live now t key →
     (GetValue now key t).1 = Nil ∧
     (Contains now key t).1 = false ∧
     Remove now key t = (get now key t).2 ∧
     (entry t key = None → Remove now key t = t) ∧
     (∀ vw, entry t key = Some vw →
        expired now vw ∧
        m (Remove now key t) = delete key (m t) ∧
        fired (Remove now key t) = fired t ++ callback_events key vw)).
Proof.
  split; [by intros []|].
  unfold GetExpires, SetExpire, Refresh.
  destruct (get now key t) as [[p|] t'] eqn:Hget.
  - assert (Hl : live now t key) by (apply get_live; rewrite Hget; by eexists).
    apply get_Some in Hget as (-> & Hm & Hv). simpl.
    split_and!; try (split; [done | by intros ?]); try done.
    intros vw (q & Hq & <-)%entry_Some _. by simplify_eq.
  - assert (Hl : ¬ live now t key) by (apply get_not_live; by rewrite Hget).
    simpl. split_and!; try (split; [done | by intros ?]); try done.
    + intros vw Hvw Hv. destruct Hl. by exists vw.
    + intros _. rewrite GetValue_get, Contains_get, Hget. simpl.
      split_and!; try done.
      * unfold Remove, remove. by rewrite Hget.
      * intros Hm%entry_None. by apply Remove_absent.
      * intros vw Hentry.
        destruct (expired_or_not now vw) as [Hv|Hv]; [|destruct Hl; by exists vw].
        apply entry_Some in Hentry as (p & Hm & <-).
        rewrite (Remove_present _ _ _ p) by done.
        by rewrite remove_vw_m, remove_vw_fired.
Qed.

(** *** [Set] *)

Lemma pool_Get_m t : m (pool_Get pick t).2 = m t.
Proof. unfold pool_Get. by destruct (_ ≫= _) as [[i p]|]. Qed.

Lemma pool_Get_size t : size (pool_Get pick t).2 = size t.
Proof. unfold pool_Get. by destruct (_ ≫= _) as [[i p]|]. Qed.

Lemma pool_Get_fired t : fired (pool_Get pick t).2 = fired t.
Proof. unfold pool_Get. by destruct (_ ≫= _) as [[i p]|]. Qed.

Lemma Set_new_m key vw t : ∃ q, m (Set_new pick key vw t) = <[key := q]> (m t).
Proof.
  unfold Set_new. pose proof (pool_Get_m t) as Hm.
  destruct (pool_Get pick t) as [q t1]. exists q. simpl in *. by rewrite Hm.
Qed.

Lemma Set_new_size key vw t : size (Set_new pick key vw t) = AddInt64 (size t) 1.
Proof.
  unfold Set_new. pose proof (pool_Get_size t) as Hs.
  destruct (pool_Get pick t) as [q t1]. simpl in *. by rewrite Hs.
Qed.

Lemma Set_new_fired key vw t : fired (Set_new pick key vw t) = fired t.
Proof.
  unfold Set_new. pose proof (pool_Get_fired t) as Hf.
  destruct (pool_Get pick t) as [q t1]. simpl in *. by rewrite Hf.
Qed.

Lemma Set_absent now now' key value d cbs t :
  m t !! key = None →
  Set_ pick now now' key value d cbs t =
    Set_new pick key {| val := value; exp := now' + d; cb := cb_arg cbs |} t.
Proof.
  intros Hm. unfold Set_, Set_new. rewrite get_absent by done.
  by destruct (pool_Get pick t).
Qed.

Lemma Set_expired now now' key value d cbs t p :
  m t !! key = Some p → expired now (deref t p) →
  Set_ pick now now' key value d cbs t =
    Set_new pick key {| val := value; exp := now' + d; cb := cb_arg cbs |}
      (remove_vw key p t).
Proof.
  intros Hm Hv. unfold Set_, Set_new. rewrite (get_expired _ _ _ p) by done.
  by destruct (pool_Get pick _).
Qed.

Lemma Set_unexpired now now' key value d cbs t p :
  m t !! key = Some p → unexpired now (deref t p) →
  Set_ pick now now' key value d cbs t =
    write p {| val := value; exp := now' + d; cb := cb_arg cbs |} t.
Proof.
  intros Hm Hv. unfold Set_. rewrite (get_unexpired _ _ _ p) by done.
  unfold Store, write. simpl. by rewrite (insert_id (m t) key p).
Qed.

Lemma Set_entry now now' key value d cbs t :
  entry (Set_ pick now now' key value d cbs t) key =
    Some {| val := value; exp := now' + d; cb := cb_arg cbs |}.
Proof.
  unfold Set_. destruct (get now key t) as [[p|] t1].
  - unfold entry, deref. simpl.
    by rewrite lookup_insert_eq; simpl; rewrite lookup_total_insert_eq.
  - destruct (pool_Get pick t1) as [q t2]. unfold entry, deref. simpl.
    by rewrite lookup_insert_eq; simpl; rewrite lookup_total_insert_eq.
Qed.

(** C3 (as amended). On a key whose entry is unexpired, [Set] calls no
    callback and only writes: the cell of the entry gets the new value,
    expiry and callback (nil when none is given), and the map, the counter
    and the pool stay as they are. On a key whose entry is expired, [Set]
    first removes that entry as a lookup does, which calls its callback on
    its value when it has one, and nothing else is called. In both cases
    the key then holds the new value, expiry and callback. *)
Theorem Set_overwrite now now' key value d cbs t vw :
  entry t key = Some vw →
  entry (Set_ pick now now' key value d cbs t) key =
    Some {| val := value; exp := now' + d; cb := cb_arg cbs |} ∧
  (unexpired now vw →
     fired (Set_ pick now now' key value d cbs t) = fired t ∧
     m (Set_ pick now now' key value d cbs t) = m t ∧
     size (Set_ pick now now' key value d cbs t) = size t ∧
     valuePool (Set_ pick now now' key value d cbs t) = valuePool t ∧
     ∃ p, m t !! key = Some p ∧
       heap (Set_ pick now now' key value d cbs t) =
         <[p := {| val := value; exp := now' + d; cb := cb_arg cbs |}]> (heap t)) ∧
  (expired now vw →
     fired (Set_ pick now now' key value d cbs t) =
       fired t ++ callback_events key vw).
Proof.
  intros (p & Hm & <-)%entry_Some. split_and!.
  - apply Set_entry.
  - intros Hv. rewrite (Set_unexpired _ _ _ _ _ _ _ p) by done.
    split_and!; try done. exists p. by split.
  - intros Hv. rewrite (Set_expired _ _ _ _ _ _ _ p) by done.
    by rewrite Set_new_fired, remove_vw_fired.
Qed.

(** *** [Range], [Flush], [cleanup] *)

Lemma visit_elem (mm : gmap K ptr) key p :
  (key, p) ∈ visit order mm ↔ mm !! key = Some p.
Proof. rewrite (visit_perm order mm). apply elem_of_map_to_list. Qed.

Lemma visit_NoDup (mm : gmap K ptr) : NoDup (visit order mm).*1.
Proof. rewrite (visit_perm order mm). apply NoDup_fst_map_to_list. Qed.

Lemma visit_length (mm : gmap K ptr) : length (visit order mm) = base.size mm.
Proof. rewrite (visit_perm order mm). apply length_map_to_list. Qed.

Lemma Range_invariant (P : timedMap K V → Prop) f l t :
  (∀ key p t, P t → P (f key p t)) → P t → P (Range f l t).
Proof.
  intros Hf. revert t. induction l as [|[key p] l IH]; intros t Ht; [done|].
  simpl. apply IH, Hf, Ht.
Qed.

Lemma Range_remove_heap l t : heap (Range remove_vw l t) = heap t.
Proof.
  revert t. induction l as [|[key p] l IH]; intros t; [done|].
  simpl. by rewrite IH, remove_vw_heap.
Qed.

Lemma Range_remove_m l t :
  m (Range remove_vw l t) = foldl (λ mm kv, delete kv.1 mm) (m t) l.
Proof.
  revert t. induction l as [|[key p] l IH]; intros t; [done|].
  simpl. by rewrite IH, remove_vw_m.
Qed.

Lemma Range_remove_size l t x :
  size t = wrap64 x →
  size (Range remove_vw l t) = wrap64 (x - Z.of_nat (length l)).
Proof.
  revert t x. induction l as [|[key p] l IH]; intros t x Hx.
  - simpl. rewrite Hx. f_equal. lia.
  - simpl. rewrite (IH _ (x - 1)).
    + f_equal. lia.
    + by rewrite remove_vw_size, Hx, AddInt64_wrap64.
Qed.

Lemma Range_remove_fired l t :
  fired (Range remove_vw l t) = fired t ++ removal_events t l.
Proof.
  unfold removal_events. revert t.
  induction l as [|[key p] l IH]; intros t; simpl.
  - by rewrite app_nil_r.
  - rewrite IH, remove_vw_fired, <-app_assoc. do 2 f_equal.
    apply list_bind_ext; [|done]. intros [key' p'] . simpl.
    by rewrite remove_vw_deref.
Qed.

Lemma lookup_foldl_delete (l : list (K * ptr)) (mm : gmap K ptr) key :
  foldl (λ mm kv, delete kv.1 mm) mm l !! key =
    if decide (key ∈ l.*1) then None else mm !! key.
Proof.
  revert mm. induction l as [|[key' p] l IH]; intros mm.
  - rewrite decide_False by apply not_elem_of_nil. done.
  - rewrite fmap_cons. cbn [foldl fst]. rewrite IH.
    destruct (decide (key = key')) as [->|Hne].
    + rewrite lookup_delete_eq, (decide_True (P := key' ∈ key' :: l.*1)) by left.
      by case_decide.
    + rewrite lookup_delete_ne by done.
      destruct (decide (key ∈ l.*1)) as [Hin|Hin].
      * rewrite decide_True by (by right). done.
      * rewrite decide_False; [done|].
        by intros [?|?]%elem_of_cons.
Qed.

Lemma Flush_m t : m (Flush order t) = ∅.
Proof.
  unfold Flush. rewrite Range_remove_m. apply map_eq. intros key.
  rewrite lookup_foldl_delete, lookup_empty.
  case_decide as Hin; [done|].
  destruct (m t !! key) as [p|] eqn:Hm; [|done].
  destruct Hin. apply list_elem_of_fmap. exists (key, p).
  split; [done|]. by apply visit_elem.
Qed.

Lemma events_of_callback_events key key' vw :
  events_of key (callback_events key' vw) =
    if decide (key' = key) then callback_events key' vw else [].
Proof.
  unfold events_of, callback_events. destruct (cb vw) as [f|].
  - rewrite filter_cons, filter_nil. simpl. by repeat case_decide.
  - rewrite filter_nil. by case_decide.
Qed.

Lemma removal_events_cons t key p l :
  removal_events t ((key, p) :: l) =
    callback_events key (deref t p) ++ removal_events t l.
Proof. done. Qed.

Lemma events_of_app key (tr1 tr2 : list (event K V)) :
  events_of key (tr1 ++ tr2) = events_of key tr1 ++ events_of key tr2.
Proof. apply filter_app. Qed.

Lemma events_of_removal_absent key t l :
  key ∉ l.*1 → events_of key (removal_events t l) = [].
Proof.
  induction l as [|[key' p'] l IH]; intros Hin; [done|].
  rewrite fmap_cons in Hin. apply not_elem_of_cons in Hin as [Hne Hin].
  rewrite removal_events_cons, events_of_app, IH by done.
  rewrite events_of_callback_events, decide_False by done. done.
Qed.

Lemma events_of_removal_present key p t l :
  NoDup l.*1 → (key, p) ∈ l →
  events_of key (removal_events t l) = callback_events key (deref t p).
Proof.
  induction l as [|[key' p'] l IH]; intros Hnd Hin.
  - by apply elem_of_nil in Hin.
  - rewrite fmap_cons in Hnd. apply NoDup_cons in Hnd as [Hnotin Hnd].
    rewrite removal_events_cons, events_of_app, events_of_callback_events.
    apply elem_of_cons in Hin as [[= <- <-]|Hin].
    + rewrite decide_True, events_of_removal_absent by done.
      by rewrite app_nil_r.
    + rewrite decide_False, IH; [done..|].
      intros ->. apply Hnotin, list_elem_of_fmap. by exists (key, p).
Qed.

(** C7. From a state whose counter is the number of its entries, [Flush]
    leaves a map without entries and [Size() = 0]. The calls it makes are
    added to the trace, and for each key they are: one call of the
    callback of the key's entry on its value when the key has an entry
    with a callback, and no call otherwise. *)
Theorem Flush_empties t :
  size_ok t →
  m (Flush order t) = ∅ ∧
  (∀ key, entry (Flush order t) key = None) ∧
  Size (Flush order t) = 0 ∧
  ∃ evs, fired (Flush order t) = fired t ++ evs ∧
    (∀ key vw f, entry t key = Some vw → cb vw = Some f →
       events_of key evs = [Fired key f (val vw)]) ∧
    (∀ key vw, entry t key = Some vw → cb vw = None →
       events_of key evs = []) ∧
    (∀ key, entry t key = None → events_of key evs = []).
Proof.
  intros Hok. split_and!.
  - apply Flush_m.
  - intros key. apply entry_None. by rewrite Flush_m.
  - unfold Size, Flush. rewrite (Range_remove_size _ _ (entries t)) by done.
    unfold entries. rewrite visit_length, Z.sub_diag. done.
  - exists (removal_events t (visit order (m t))). split_and!.
    + apply Range_remove_fired.
    + intros key vw f (p & Hm & <-)%entry_Some Hcb.
      rewrite (events_of_removal_present key p).
      * unfold callback_events. by rewrite Hcb.
      * apply visit_NoDup.
      * by apply visit_elem.
    + intros key vw (p & Hm & <-)%entry_Some Hcb.
      rewrite (events_of_removal_present key p).
      * unfold callback_events. by rewrite Hcb.
      * apply visit_NoDup.
      * by apply visit_elem.
    + intros key Hm%entry_None. apply events_of_removal_absent.
      intros ([key' p] & -> & Hin%visit_elem)%list_elem_of_fmap.
      simpl in Hm. congruence.
Qed.

(** *** What a sweep removes *)

Lemma get_heap now key t : heap (get now key t).2 = heap t.
Proof.
  destruct (get now key t) as [[p|] t'] eqn:Hget.
  - by apply get_Some in Hget as (-> & _).
  - apply get_None in Hget as [[_ ->]|(p & _ & _ & ->)]; [done|].
    apply remove_vw_heap.
Qed.

Lemma get_m now key t p :
  m t !! key = Some p →
  m (get now key t).2 =
    if decide (expired now (deref t p)) then delete key (m t) else m t.
Proof.
  intros Hm. case_decide as Hv.
  - rewrite (get_expired _ _ _ p) by done. apply remove_vw_m.
  - rewrite (get_unexpired _ _ _ p); [done | done |].
    by destruct (expired_or_not now (deref t p)).
Qed.

Lemma Range_get_heap nows l t :
  heap (Range (λ key _ t, (get (nows key) key t).2) l t) = heap t.
Proof.
  revert t. induction l as [|[key p] l IH]; intros t; [done|].
  simpl. by rewrite IH, get_heap.
Qed.

Lemma Range_get_lookup nows l t key :
  NoDup l.*1 → (∀ key p, (key, p) ∈ l → m t !! key = Some p) →
  m (Range (λ key _ t, (get (nows key) key t).2) l t) !! key =
    match m t !! key with
    | Some p =>
        if decide ((key, p) ∈ l ∧ expired (nows key) (deref t p)) then None
        else Some p
    | None => None
    end.
Proof.
  revert t. induction l as [|[k p0] l IH]; intros t Hnd Hl.
  - cbn [Range foldl]. destruct (m t !! key) as [p|]; [|done].
    rewrite decide_False; [done|]. intros [[]%elem_of_nil _].
  - rewrite fmap_cons in Hnd. apply NoDup_cons in Hnd as [Hnotin Hnd].
    assert (m t !! k = Some p0) as Hk by (apply Hl; left).
    assert (∀ p, (k, p) ∉ l) as Hkl.
    { intros p Hin. apply Hnotin, list_elem_of_fmap. by exists (k, p). }
    cbn [Range foldl fst snd].
    change (foldl _ ?t' l) with
      (Range (λ key _ t, (get (nows key) key t).2) l t').
    rewrite IH; [|done|].
    + rewrite (get_m _ _ _ p0) by done. unfold deref. rewrite get_heap.
      destruct (decide (key = k)) as [->|Hne].
      * rewrite Hk.
        destruct (decide (expired (nows k) (heap t !!! p0))) as [Hv|Hv];
          lazy beta iota.
        -- rewrite lookup_delete_eq.
           rewrite decide_True; [done|]. split; [left | done].
        -- rewrite Hk. rewrite !decide_False; [done|..].
           ++ by intros [_ ?].
           ++ by intros [?%Hkl _].
      * assert ((if decide (expired (nows k) (heap t !!! p0))
                 then delete k (m t) else m t) !! key = m t !! key) as ->.
        { case_decide; [by rewrite lookup_delete_ne | done]. }
        destruct (m t !! key) as [p|]; [|done].
        destruct (decide ((key, p) ∈ l ∧ expired (nows key) (heap t !!! p)))
          as [[Hin Hv]|Hn].
        -- rewrite decide_True; [done|]. split; [by right | done].
        -- rewrite decide_False; [done|].
           intros [[[= -> ->]|Hin]%elem_of_cons Hv]; [done|]. by apply Hn.
    + intros key' p' Hin. rewrite (get_m _ _ _ p0) by done.
      assert (k ≠ key') as Hne by (intros ->; by apply (Hkl p')).
      case_decide; [rewrite lookup_delete_ne by done|]; apply Hl; by right.
Qed.

Lemma cleanup_heap nows t : heap (cleanup order nows t) = heap t.
Proof. apply Range_get_heap. Qed.

(** A sweep deletes the entries that are expired when it visits them, and
    no other. *)
Lemma cleanup_m nows t :
  m (cleanup order nows t) = filter (kept nows t) (m t).
Proof.
  apply map_eq. intros key. unfold cleanup.
  rewrite Range_get_lookup, map_lookup_filter;
    [|apply visit_NoDup|intros ??; apply visit_elem].
  destruct (m t !! key) as [p|] eqn:Hm; [|done].
  cbn [mbind option_bind]. unfold kept. cbn [fst snd].
  destruct (decide (expired (nows key) (deref t p))) as [Hv|Hv].
  - rewrite decide_True by (by rewrite visit_elem).
    by rewrite option_guard_False by (by intros ?).
  - rewrite decide_False by (by intros [_ ?]).
    by rewrite option_guard_True.
Qed.

Lemma cleanup_entries nows t :
  entries (cleanup order nows t) =
    entries t - Z.of_nat (base.size (filter (λ kp, ¬ kept nows t kp) (m t))).
Proof.
  unfold entries. rewrite cleanup_m.
  rewrite <-(map_filter_union_complement (kept nows t) (m t)) at 2.
  rewrite map_size_disj_union by apply map_disjoint_filter_complement. lia.
Qed.

(** *** The counter *)

Lemma entries_delete key t t' :
  m t' = delete key (m t) → is_Some (m t !! key) → entries t' = entries t - 1.
Proof.
  unfold entries. intros -> Hs. rewrite map_size_delete_Some by done.
  pose proof (map_size_ne_0_lookup_2 (m t) key Hs). lia.
Qed.

Lemma entries_insert_None key q t t' :
  m t' = <[key := q]> (m t) → m t !! key = None → entries t' = entries t + 1.
Proof.
  unfold entries. intros -> Hs. rewrite map_size_insert_None by done. lia.
Qed.

Lemma entries_nonneg t : 0 <= entries t.
Proof. unfold entries. lia. Qed.

Lemma entries_pos key t : is_Some (m t !! key) → 1 <= entries t.
Proof.
  intros Hs. pose proof (map_size_ne_0_lookup_2 (m t) key Hs).
  unfold entries. lia.
Qed.

Lemma size_ok_exact t : size_ok t → entries t < 2 ^ 63 → size t = entries t.
Proof.
  unfold size_ok. intros -> Hlt. apply wrap64_small.
  pose proof (entries_nonneg t). unfold is_int64. lia.
Qed.

Lemma remove_vw_entries key p t :
  is_Some (m t !! key) → entries (remove_vw key p t) = entries t - 1.
Proof. apply entries_delete, remove_vw_m. Qed.

Lemma size_ok_remove_vw key p t :
  is_Some (m t !! key) → size_ok t → size_ok (remove_vw key p t).
Proof.
  unfold size_ok. intros Hs Hok.
  rewrite remove_vw_size, remove_vw_entries, Hok, AddInt64_wrap64 by done.
  f_equal.
Qed.

Lemma size_ok_get now key t : size_ok t → size_ok (get now key t).2.
Proof.
  intros Hok. destruct (get now key t) as [[p|] t'] eqn:Hget.
  - by apply get_Some in Hget as (-> & _).
  - apply get_None in Hget as [[_ ->]|(p & Hm & _ & ->)]; [done|].
    by apply size_ok_remove_vw.
Qed.

Lemma Set_new_entries key vw t :
  m t !! key = None → entries (Set_new pick key vw t) = entries t + 1.
Proof.
  intros Hm. destruct (Set_new_m key vw t) as [q Hq].
  by apply (entries_insert_None key q).
Qed.

Lemma size_ok_Set_new key vw t :
  m t !! key = None → size_ok t → size_ok (Set_new pick key vw t).
Proof.
  unfold size_ok. intros Hm Hok.
  by rewrite Set_new_size, Set_new_entries, Hok, AddInt64_wrap64.
Qed.

Lemma size_ok_write p vw t : size_ok t → size_ok (write p vw t).
Proof. done. Qed.

Lemma size_ok_Set now now' key value d cbs t :
  size_ok t → size_ok (Set_ pick now now' key value d cbs t).
Proof.
  intros Hok. destruct (m t !! key) as [p|] eqn:Hm.
  - destruct (expired_or_not now (deref t p)) as [Hv|Hv].
    + rewrite (Set_expired _ _ _ _ _ _ _ p) by done.
      apply size_ok_Set_new.
      * by rewrite remove_vw_m, lookup_delete_eq.
      * by apply size_ok_remove_vw.
    + rewrite (Set_unexpired _ _ _ _ _ _ _ p) by done. by apply size_ok_write.
  - rewrite Set_absent by done. by apply size_ok_Set_new.
Qed.

Lemma size_ok_Flush t : size_ok t → size_ok (Flush order t).
Proof.
  intros Hok. unfold size_ok, entries. rewrite Flush_m, map_size_empty.
  unfold Flush. rewrite (Range_remove_size _ _ (entries t)) by done.
  unfold entries. by rewrite visit_length, Z.sub_diag.
Qed.

Lemma size_ok_cleanup nows t : size_ok t → size_ok (cleanup order nows t).
Proof.
  unfold cleanup. apply Range_invariant. intros key _ t'. apply size_ok_get.
Qed.

Lemma step_read now key t :
  (GetValue now key t).2 = (get now key t).2 ∧
  (GetExpires now key t).2 = (get now key t).2 ∧
  (Contains now key t).2 = (get now key t).2.
Proof.
  unfold GetValue, GetExpires, Contains.
  by destruct (get now key t) as [[p|] t'].
Qed.

Lemma size_ok_step o t : size_ok t → size_ok (step pick order o t).
Proof.
  intros Hok. destruct o as [now now' key value d cbs|now key|now key
    |now now' key d|now key d|now key|now key| | |nows]; simpl.
  - by apply size_ok_Set.
  - rewrite (proj1 (step_read now key t)). by apply size_ok_get.
  - rewrite (proj1 (proj2 (step_read now key t))). by apply size_ok_get.
  - unfold SetExpire. pose proof (size_ok_get now key t Hok) as Hg.
    by destruct (get now key t) as [[p|] t'].
  - unfold Refresh. pose proof (size_ok_get now key t Hok) as Hg.
    by destruct (get now key t) as [[p|] t'].
  - rewrite (proj2 (proj2 (step_read now key t))). by apply size_ok_get.
  - destruct (m t !! key) as [p|] eqn:Hm.
    + rewrite (Remove_present _ _ _ p) by done. by apply size_ok_remove_vw.
    + by rewrite Remove_absent.
  - by apply size_ok_Flush.
  - done.
  - by apply size_ok_cleanup.
Qed.

Lemma run_invariant (P : timedMap K V → Prop) ops t :
  (∀ o t, P t → P (step pick order o t)) → P t → P (run pick order ops t).
Proof.
  intros Hstep. revert t. induction ops as [|o ops IH]; intros t Ht; [done|].
  simpl. apply IH, Hstep, Ht.
Qed.

Lemma size_ok_run ops : size_ok (run pick order ops New_store).
Proof. apply run_invariant; [apply size_ok_step | done]. Qed.

Lemma size_ok_delta t t' :
  size_ok t → size_ok t' → size t' = wrap64 (size t + (entries t' - entries t)).
Proof.
  unfold size_ok. intros -> ->. rewrite wrap64_add_l. f_equal. lia.
Qed.

Lemma size_ok_removed key t :
  size_ok t → is_Some (m t !! key) → entries t < 2 ^ 63 →
  AddInt64 (size t) (-1) = size t - 1.
Proof.
  intros Hok Hpos%entries_pos Hlt. rewrite (size_ok_exact t) by done.
  apply AddInt64_exact. unfold is_int64. lia.
Qed.

(** C2. In every state which a sequence of operations reaches from the
    empty map, the counter is the number of entries present in the map (as
    an [int64]; exactly, while there are fewer than 2^63 of them), and every
    operation changes the counter by the change of that number. [Set] of a
    key without an entry adds one entry and 1 to the counter; [Set] of a
    key with an entry, expired or not, leaves both as they are. A read of a
    key whose entry is expired and [Remove] of a key with an entry take one
    entry away and 1 from the counter. A sweep takes away the entries that
    are expired when it visits them, and their number from the counter;
    [Flush] leaves no entry and the counter at 0. *)
Theorem size_counts_entries ops :
  let t := run pick order ops New_store in
  Size t = wrap64 (entries t) ∧
  (entries t < 2 ^ 63 → Size t = entries t) ∧
  (∀ o, Size (step pick order o t) =
          wrap64 (Size t + (entries (step pick order o t) - entries t))) ∧
  (∀ now now' key value d cbs, entry t key = None →
     entries (Set_ pick now now' key value d cbs t) = entries t + 1 ∧
     Size (Set_ pick now now' key value d cbs t) = AddInt64 (Size t) 1 ∧
     (entries t + 1 < 2 ^ 63 →
        Size (Set_ pick now now' key value d cbs t) = Size t + 1)) ∧
  (∀ now now' key value d cbs, is_Some (entry t key) →
     entries (Set_ pick now now' key value d cbs t) = entries t ∧
     Size (Set_ pick now now' key value d cbs t) = Size t) ∧
  (∀ now now' key d vw o, entry t key = Some vw → expired now vw →
     o ∈ [OpGetValue now key; OpGetExpires now key; OpSetExpire now now' key d;
          OpRefresh now key d; OpContains now key] →
     entries (step pick order o t) = entries t - 1 ∧
     Size (step pick order o t) = AddInt64 (Size t) (-1) ∧
     (entries t < 2 ^ 63 → Size (step pick order o t) = Size t - 1)) ∧
  (∀ now key, is_Some (entry t key) →
     entries (Remove now key t) = entries t - 1 ∧
     Size (Remove now key t) = AddInt64 (Size t) (-1) ∧
     (entries t < 2 ^ 63 → Size (Remove now key t) = Size t - 1)) ∧
  (∀ nows,
     m (cleanup order nows t) = filter (kept nows t) (m t) ∧
     Size (cleanup order nows t) =
       wrap64 (Size t -
               Z.of_nat (base.size (filter (λ kp, ¬ kept nows t kp) (m t))))) ∧
  (entries (Flush order t) = 0 ∧ Size (Flush order t) = 0).
Proof.
  intros t. pose proof (size_ok_run ops) as Hok. fold t in Hok.
  unfold Size. split_and!.
  - done.
  - by apply size_ok_exact.
  - intros o. apply size_ok_delta; [done | by apply size_ok_step].
  - intros now now' key value d cbs Hm%entry_None.
    rewrite Set_absent by done.
    rewrite Set_new_size, Set_new_entries by done. split_and!; try done.
    intros Hlt. rewrite (size_ok_exact t) by (done || lia).
    apply AddInt64_exact. pose proof (entries_nonneg t).
    unfold is_int64. lia.
  - intros now now' key value d cbs [vw (p & Hm & <-)%entry_Some].
    destruct (expired_or_not now (deref t p)) as [Hv|Hv].
    + rewrite (Set_expired _ _ _ _ _ _ _ p) by done.
      rewrite Set_new_size, Set_new_entries, remove_vw_size, remove_vw_entries
        by (done || by rewrite remove_vw_m, lookup_delete_eq). split; [lia|].
      apply AddInt64_undo. rewrite Hok. apply wrap64_range.
    + by rewrite (Set_unexpired _ _ _ _ _ _ _ p).
  - intros now now' key d vw o (p & Hm & <-)%entry_Some Hv Ho.
    assert (step pick order o t = remove_vw key p t) as ->.
    { pose proof (get_expired now key t p Hm Hv) as Hget.
      repeat (apply elem_of_cons in Ho as [->|Ho]); simpl;
        [unfold GetValue|unfold GetExpires|unfold SetExpire|unfold Refresh
        |unfold Contains|by apply elem_of_nil in Ho]; by rewrite Hget. }
    rewrite remove_vw_size, remove_vw_entries by done. split_and!; try done.
    by apply (size_ok_removed key).
  - intros now key [vw (p & Hm & <-)%entry_Some].
    rewrite (Remove_present _ _ _ p) by done.
    rewrite remove_vw_size, remove_vw_entries by done. split_and!; try done.
    by apply (size_ok_removed key).
  - intros nows. split; [apply cleanup_m|].
    pose proof (size_ok_cleanup nows t Hok) as Hc. unfold size_ok in Hc.
    rewrite Hc, cleanup_entries, Hok. symmetry.
    apply (wrap64_add_l (entries t) (- _)).
  - unfold entries. by rewrite Flush_m, map_size_empty.
  - pose proof (size_ok_Flush t Hok) as HF.
    unfold size_ok, entries in HF. by rewrite HF, Flush_m, map_size_empty.
Qed.

(** *** Pointers are not shared *)

Lemma NoDup_delete_notin (l : list ptr) i q :
  NoDup l → l !! i = Some q → (q ∉ delete i l) ∧ NoDup (delete i l).
Proof.
  intros Hnd Hi. split; [|by eapply sublist_NoDup, sublist_delete].
  rewrite <-(take_drop_middle l i q Hi) in Hnd.
  apply NoDup_app in Hnd as (_ & Hl & [Hr _]%NoDup_cons).
  rewrite delete_take_drop. intros [Hin|Hin]%elem_of_app; [|done].
  apply (Hl q Hin). left.
Qed.

Lemma separated_remove_vw key p t :
  m t !! key = Some p → separated t → separated (remove_vw key p t).
Proof.
  intros Hm [Hma Hpa Hnd Hpm Hinj]. split.
  - intros key' q. rewrite remove_vw_m, remove_vw_heap.
    intros [_ Hq]%lookup_delete_Some. by eapply Hma.
  - intros q. rewrite remove_vw_valuePool, remove_vw_heap.
    intros [->|Hq]%elem_of_cons; [by eapply Hma | by apply Hpa].
  - rewrite remove_vw_valuePool. apply NoDup_cons. split; [by eapply Hpm | done].
  - intros key' q. rewrite remove_vw_m, remove_vw_valuePool.
    intros [Hne Hq]%lookup_delete_Some [->|Hin]%elem_of_cons.
    + by apply Hne, (Hinj key key' p).
    + by eapply Hpm.
  - intros k1 k2 q. rewrite remove_vw_m.
    intros [_ H1]%lookup_delete_Some [_ H2]%lookup_delete_Some.
    by eapply Hinj.
Qed.

Lemma separated_get now key t : separated t → separated (get now key t).2.
Proof.
  intros Hsep. destruct (get now key t) as [[p|] t'] eqn:Hget.
  - by apply get_Some in Hget as (-> & _).
  - apply get_None in Hget as [[_ ->]|(p & Hm & _ & ->)]; [done|].
    by apply separated_remove_vw.
Qed.

Lemma separated_write p vw t : separated t → separated (write p vw t).
Proof.
  intros [Hma Hpa Hnd Hpm Hinj]. split; simpl; try done.
  - intros key q Hq. by eapply dom_insert_subseteq, Hma.
  - intros q Hq. by eapply dom_insert_subseteq, Hpa.
Qed.

(** [Get] hands out an idle object, which leaves the pool, or a pointer
    that was not allocated before. *)
Lemma pool_Get_cases t :
  (∃ i q, valuePool t !! i = Some q ∧
     pool_Get pick t =
       (q, {| heap := heap t; m := m t; valuePool := delete i (valuePool t);
              size := size t; fired := fired t |})) ∨
  (pool_Get pick t =
     (fresh (dom (heap t)),
      {| heap := <[fresh (dom (heap t)) := zero_valueWrapper]> (heap t);
         m := m t; valuePool := valuePool t; size := size t;
         fired := fired t |})).
Proof.
  unfold pool_Get. destruct (pick (valuePool t)) as [i|]; simpl; [|by right].
  destruct (valuePool t !! i) as [q|] eqn:Hi; simpl; [|by right].
  left. by exists i, q.
Qed.

Lemma separated_Set_new key vw t :
  m t !! key = None → separated t → separated (Set_new pick key vw t).
Proof.
  intros Hm [Hma Hpa Hnd Hpm Hinj]. unfold Set_new.
  destruct (pool_Get_cases t) as [(i & q & Hi & ->) | ->].
  - destruct (NoDup_delete_notin _ _ _ Hnd Hi) as [Hq Hnd'].
    assert (q ∈ valuePool t) as Hin by (apply list_elem_of_lookup; eauto).
    split; simpl.
    + intros key' q' [[-> ->]|[_ Hq']]%lookup_insert_Some.
      * rewrite dom_insert_L. set_solver.
      * by eapply dom_insert_subseteq, Hma.
    + intros q' Hq'%list_elem_of_delete_inv. by eapply dom_insert_subseteq, Hpa.
    + done.
    + intros key' q' [[-> ->]|[_ Hq']]%lookup_insert_Some; [done|].
      intros Hd%list_elem_of_delete_inv. by eapply Hpm.
    + intros k1 k2 q' [[<- <-]|[Hn1 H1]]%lookup_insert_Some
        [[<- Heq]|[Hn2 H2]]%lookup_insert_Some.
      * done.
      * by destruct (Hpm _ _ H2).
      * rewrite <-Heq in H1. by destruct (Hpm _ _ H1).
      * by eapply Hinj.
  - pose proof (is_fresh (dom (heap t))) as Hfresh.
    set (q := fresh (dom (heap t))) in *.
    assert (∀ key', m t !! key' ≠ Some q) as Hnm.
    { intros key' Hq. by apply Hfresh, (Hma key'). }
    split; simpl.
    + intros key' q' [[-> ->]|[_ Hq']]%lookup_insert_Some.
      * rewrite dom_insert_L. set_solver.
      * apply dom_insert_subseteq, dom_insert_subseteq. by eapply Hma.
    + intros q' Hq'. apply dom_insert_subseteq, dom_insert_subseteq.
      by apply Hpa.
    + done.
    + intros key' q' [[-> ->]|[_ Hq']]%lookup_insert_Some.
      * intros Hin. by apply Hfresh, Hpa.
      * by eapply Hpm.
    + intros k1 k2 q' [[<- <-]|[Hn1 H1]]%lookup_insert_Some
        [[<- Heq]|[Hn2 H2]]%lookup_insert_Some.
      * done.
      * by destruct (Hnm k2).
      * rewrite <-Heq in H1. by destruct (Hnm k1).
      * by eapply Hinj.
Qed.

Lemma separated_Set now now' key value d cbs t :
  separated t → separated (Set_ pick now now' key value d cbs t).
Proof.
  intros Hsep. destruct (m t !! key) as [p|] eqn:Hm.
  - destruct (expired_or_not now (deref t p)) as [Hv|Hv].
    + rewrite (Set_expired _ _ _ _ _ _ _ p) by done.
      apply separated_Set_new.
      * by rewrite remove_vw_m, lookup_delete_eq.
      * by apply separated_remove_vw.
    + rewrite (Set_unexpired _ _ _ _ _ _ _ p) by done.
      by apply separated_write.
  - rewrite Set_absent by done. by apply separated_Set_new.
Qed.

Lemma separated_Range_remove l t :
  NoDup l.*1 → (∀ key p, (key, p) ∈ l → m t !! key = Some p) →
  separated t → separated (Range remove_vw l t).
Proof.
  revert t. induction l as [|[key p] l IH]; intros t Hnd Hl Hsep; [done|].
  rewrite fmap_cons in Hnd. apply NoDup_cons in Hnd as [Hnotin Hnd].
  simpl. apply IH; [done| |].
  - intros key' p' Hin. rewrite remove_vw_m, lookup_delete_ne.
    + apply Hl. by right.
    + intros ->. apply Hnotin, list_elem_of_fmap. by exists (key', p').
  - apply separated_remove_vw; [|done]. apply Hl. left.
Qed.

Lemma separated_Flush t : separated t → separated (Flush order t).
Proof.
  apply separated_Range_remove; [apply visit_NoDup|].
  intros key p. apply visit_elem.
Qed.

Lemma separated_cleanup nows t : separated t → separated (cleanup order nows t).
Proof.
  unfold cleanup. apply Range_invariant. intros key _ t'.
  apply separated_get.
Qed.

Lemma separated_step o t : separated t → separated (step pick order o t).
Proof.
  intros Hsep. destruct o as [now now' key value d cbs|now key|now key
    |now now' key d|now key d|now key|now key| | |nows]; simpl.
  - by apply separated_Set.
  - rewrite (proj1 (step_read now key t)). by apply separated_get.
  - rewrite (proj1 (proj2 (step_read now key t))). by apply separated_get.
  - unfold SetExpire. pose proof (separated_get now key t Hsep) as Hg.
    destruct (get now key t) as [[p|] t']; [|done]. by apply separated_write.
  - unfold Refresh. pose proof (separated_get now key t Hsep) as Hg.
    destruct (get now key t) as [[p|] t']; [|done]. by apply separated_write.
  - rewrite (proj2 (proj2 (step_read now key t))). by apply separated_get.
  - destruct (m t !! key) as [p|] eqn:Hm.
    + rewrite (Remove_present _ _ _ p) by done. by apply separated_remove_vw.
    + by rewrite Remove_absent.
  - by apply separated_Flush.
  - done.
  - by apply separated_cleanup.
Qed.

Lemma separated_New : separated (New_store : timedMap K V).
Proof.
  split; simpl; try done.
  - intros p Hp. by apply elem_of_nil in Hp.
  - apply NoDup_nil_2.
Qed.

Lemma separated_run ops : separated (run pick order ops New_store).
Proof. apply run_invariant; [apply separated_step | apply separated_New]. Qed.

(** *** The pool *)

Lemma Set_new_entry_ne key key' vw t :
  separated t → key ≠ key' →
  entry (Set_new pick key vw t) key' = entry t key'.
Proof.
  intros [Hma Hpa Hnd Hpm Hinj] Hne. unfold Set_new.
  destruct (pool_Get_cases t) as [(i & q & Hi & ->) | ->];
    unfold entry, deref; simpl; rewrite lookup_insert_ne by done;
    destruct (m t !! key') as [q'|] eqn:Hq'; simpl; try done; f_equal.
  - rewrite lookup_total_insert_ne; [done|]. intros ->.
    apply (Hpm _ _ Hq'), list_elem_of_lookup. eauto.
  - pose proof (is_fresh (dom (heap t))) as Hfresh.
    rewrite !lookup_total_insert_ne; [done|intros Heq..];
      apply Hfresh; rewrite Heq; by eapply Hma.
Qed.

Lemma write_entry_ne key key' p vw t :
  separated t → m t !! key = Some p → key ≠ key' →
  entry (write p vw t) key' = entry t key'.
Proof.
  intros [Hma Hpa Hnd Hpm Hinj] Hm Hne. unfold entry, deref. simpl.
  destruct (m t !! key') as [q'|] eqn:Hq'; simpl; [|done]. f_equal.
  rewrite lookup_total_insert_ne; [done|]. intros ->.
  by apply Hne, (Hinj key key' q').
Qed.

Lemma Set_entry_ne now now' key key' value d cbs t :
  separated t → key ≠ key' →
  entry (Set_ pick now now' key value d cbs t) key' = entry t key'.
Proof.
  intros Hsep Hne. destruct (m t !! key) as [p|] eqn:Hm.
  - destruct (expired_or_not now (deref t p)) as [Hv|Hv].
    + rewrite (Set_expired _ _ _ _ _ _ _ p) by done.
      rewrite Set_new_entry_ne, remove_vw_entry_ne; try done.
      by apply separated_remove_vw.
    + rewrite (Set_unexpired _ _ _ _ _ _ _ p) by done.
      by apply (write_entry_ne key).
  - rewrite Set_absent by done. by apply Set_new_entry_ne.
Qed.

(** C9 (as amended). In every state reached from the empty map: the
    object of a removed entry goes to the pool as it is, still holding the
    value, expiry and callback of the removed entry; no object idle in
    the pool is the entry of a key; and [Set], whatever object the pool
    hands it, assigns the value, the expiry and the callback before it
    stores the object, so that the key holds exactly what [Set] was given
    and the entries of the other keys are as before. *)
Theorem pool_object_overwritten_by_Set ops :
  let t := run pick order ops New_store in
  (∀ now key vw, entry t key = Some vw →
     ∃ p, valuePool (Remove now key t) = p :: valuePool t ∧
       deref (Remove now key t) p = vw) ∧
  (∀ key p, m t !! key = Some p → p ∉ valuePool t) ∧
  (∀ now now' key value d cbs,
     entry (Set_ pick now now' key value d cbs t) key =
       Some {| val := value; exp := now' + d; cb := cb_arg cbs |} ∧
     ∀ key', key ≠ key' →
       entry (Set_ pick now now' key value d cbs t) key' = entry t key').
Proof.
  intros t. pose proof (separated_run ops) as Hsep. fold t in Hsep.
  split_and!.
  - intros now key vw (p & Hm & <-)%entry_Some. exists p.
    rewrite (Remove_present _ _ _ p) by done.
    by rewrite remove_vw_valuePool, remove_vw_deref.
  - apply Hsep.
  - intros now now' key value d cbs. split; [apply Set_entry|].
    intros key' Hne. by apply Set_entry_ne.
Qed.

End facts.

(** ** The cleaner *)

Lemma for_turn_returned (msg : message) (c : cycle) :
  returned (for_turn msg c) = returned c.
Proof. by destruct msg. Qed.

Lemma deliver_cleanupRunning (i : nat) (msg : message) (s s' : cleaner) :
  deliver i msg s = Some s' → cleanupRunning s' = cleanupRunning s.
Proof.
  unfold deliver. destruct (cycles s !! i) as [c|]; [|done].
  destruct (returned c) eqn:Hret; [done|].
  destruct (receivable msg c); [|done]. simpl. intros [= <-]. simpl.
  by rewrite for_turn_returned, Hret.
Qed.

(** C4 (what the code does). [StopCleaner] returns once a goroutine has
    received the signal, and that goroutine's ticker is stopped then, so it
    receives no further tick. But the [break] of the [select] case does not
    leave the [for] loop: the goroutine has not returned, the deferred
    function has not run, and [cleanupRunning] is what it was, [true] after
    [New]. *)
Theorem StopCleaner_leaves_cleanupCycle_running :
  (∀ i s s', StopCleaner i s = Some s' →
     cleanupRunning s' = cleanupRunning s ∧
     ¬ ticks_after i s' ∧
     ∃ c, cycles s' !! i = Some c ∧
       ticker_running c = false ∧ returned c = false) ∧
  stopped_cleaner =
    Some {| cleanupRunning := true;
            cycles := [{| ticker_running := false; cleanups := 0;
                          returned := false |}] |}.
Proof.
  split; [|done]. intros i s s' Hstop. split.
  { by eapply deliver_cleanupRunning. }
  unfold StopCleaner, deliver in Hstop. unfold ticks_after, deliver.
  destruct (cycles s !! i) as [c|] eqn:Hi; [|done].
  destruct (returned c) eqn:Hret; [done|]. simpl in Hstop.
  injection Hstop as <-. simpl.
  rewrite list_lookup_insert_eq by (by eapply lookup_lt_Some).
  simpl. rewrite Hret. split; [by intros [? ?]|].
  eexists. by split_and!.
Qed.

(** * The properties on the example states *)

(** C1 on [one_entry]: at time 5 the entry of "a" is returned and nothing
    changes; at time 20 it is expired, nil is returned, and the entry is gone
    after its callback was called on 1. *)
Lemma GetValue_lazy_expiry_example :
  GetValue 5 "a" one_entry = (Dyn 1, one_entry) ∧
  ∃ t', GetValue 20 "a" one_entry = (Nil, t') ∧
    entry t' "a" = None ∧
    m t' = delete "a" (m one_entry) ∧
    fired t' =
      fired one_entry ++
      callback_events "a" {| val := Dyn 1; exp := 10; cb := Some 7%nat |}.
Proof.
  split.
  - apply (proj1 (GetValue_lazy_expiry 5 "a" one_entry)
             {| val := Dyn 1; exp := 10; cb := Some 7%nat |}).
    + vm_compute. reflexivity.
    + unfold unexpired. simpl. lia.
  - apply (proj1 (proj2 (proj2 (GetValue_lazy_expiry 20 "a" one_entry)))
             {| val := Dyn 1; exp := 10; cb := Some 7%nat |}).
    + vm_compute. reflexivity.
    + unfold expired. simpl. lia.
Defined.

(** C10 on [nil_entry]. *)
Lemma GetValue_nil_value_example :
  (GetValue 5 "n" nil_entry).1 = Nil ∧ (Contains 5 "n" nil_entry).1 = true.
Proof.
  assert (entry nil_entry "n" = Some {| val := Nil; exp := 10; cb := None |})
    as Hentry by (vm_compute; reflexivity).
  assert (unexpired 5 {| val := @Nil Z; exp := 10; cb := None |})
    as Hlive by (unfold unexpired; simpl; lia).
  destruct (GetValue_nil_value 5 "n" nil_entry _ Hentry Hlive eq_refl)
    as (Hget & Hcontains & _).
  exact (conj Hget Hcontains).
Defined.

(** C5 on [two_entries]: [Remove("a")] takes the entry of "a" away, leaves
    one entry, and calls the callback of "a" on 1. *)
Lemma Remove_present_or_absent_example :
  entry (Remove 5 "a" two_entries) "a" = None ∧
  Size (Remove 5 "a" two_entries) = Size two_entries - 1 ∧
  fired (Remove 5 "a" two_entries) = fired two_entries ++ [Fired "a" 7%nat (Dyn 1)] ∧
  Remove 5 "zz" two_entries = two_entries.
Proof.
  destruct (Remove_present_or_absent 5 "a" two_entries) as [_ Hpresent].
  destruct (Hpresent {| val := Dyn 1; exp := 10; cb := Some 7%nat |})
    as (Hgone & _ & _ & _ & Hsize & Hcb & _); [vm_compute; reflexivity|].
  split_and!.
  - exact Hgone.
  - apply Hsize. vm_compute. split; reflexivity.
  - apply Hcb. reflexivity.
  - apply (proj1 (Remove_present_or_absent 5 "zz" two_entries)).
    vm_compute. reflexivity.
Defined.

(** C6 on [one_entry]: at time 5, [Refresh("a", -3)] moves the expiry from
    10 to 7. *)
Lemma Refresh_adds_to_expiry_example :
  ∃ t', Refresh 5 "a" (-3) one_entry = (None, t') ∧
    entry t' "a" = Some {| val := Dyn 1; exp := 10 + -3; cb := Some 7%nat |} ∧
    (-3 < 0 → ∃ vw', entry t' "a" = Some vw' ∧ exp vw' < 10) ∧
    m t' = m one_entry ∧ size t' = size one_entry ∧
    valuePool t' = valuePool one_entry ∧ fired t' = fired one_entry.
Proof.
  apply (Refresh_adds_to_expiry 5 "a" (-3) one_entry
           {| val := Dyn 1; exp := 10; cb := Some 7%nat |}).
  - vm_compute. reflexivity.
  - unfold unexpired. simpl. lia.
Defined.

(** C7 on [two_entries]. *)
Lemma Flush_empties_example :
  m (Flush in_map_order two_entries) = ∅ ∧ Size (Flush in_map_order two_entries) = 0.
Proof.
  assert (size_ok two_entries) as Hok by (vm_compute; reflexivity).
  destruct (Flush_empties in_map_order two_entries Hok) as (Hm & _ & Hsize & _).
  exact (conj Hm Hsize).
Defined.

(** C8 on [one_entry]: no error at time 5, [ErrKeyNotFound] at time 20 and
    for a key that was never set. *)
Lemma ErrKeyNotFound_exactly_example :
  (GetExpires 5 "a" one_entry).1 = (10, None) ∧
  (GetExpires 20 "a" one_entry).1.2 = Some ErrKeyNotFound ∧
  (Refresh 20 "zz" 1 one_entry).1 = Some ErrKeyNotFound.
Proof.
  split_and!.
  - apply (proj1 (proj2 (proj2 (proj2 (proj2 (proj2 (proj2 (proj2
             (ErrKeyNotFound_exactly 5 5 "a" 0 one_entry))))))))
             {| val := Dyn 1; exp := 10; cb := Some 7%nat |}).
    + vm_compute. reflexivity.
    + unfold unexpired. simpl. lia.
  - apply (proj1 (proj2 (ErrKeyNotFound_exactly 20 20 "a" 0 one_entry))).
    intros (vw & Hentry & Hlive). vm_compute in Hentry.
    injection Hentry as <-. unfold unexpired in Hlive. simpl in Hlive. lia.
  - apply (proj1 (proj2 (proj2 (proj2 (ErrKeyNotFound_exactly 20 20 "zz" 1 one_entry))))).
    intros (vw & Hentry & _). vm_compute in Hentry. discriminate.
Defined.

(** C8, where the claim fails: at time 20 the entry of "a" in [one_entry]
    is expired, and [Remove("a")] is not without effect: it deletes the
    entry, takes 1 from the counter and calls the callback of the entry. *)
Lemma Remove_of_expired_key_is_not_a_noop :
  entry one_entry "a" = Some {| val := Dyn 1; exp := 10; cb := Some 7%nat |} ∧
  ¬ live 20 one_entry "a" ∧
  Size one_entry = 1 ∧ Size (Remove 20 "a" one_entry) = 0 ∧
  fired one_entry = [] ∧
  fired (Remove 20 "a" one_entry) = [Fired "a" 7%nat (Dyn 1)] ∧
  Remove 20 "a" one_entry ≠ one_entry.
Proof.
  split_and!; try (vm_compute; reflexivity).
  - intros (vw & Hentry & Hlive). vm_compute in Hentry.
    injection Hentry as <-. unfold unexpired in Hlive. simpl in Hlive. lia.
  - intros Heq. apply (f_equal size) in Heq. vm_compute in Heq. discriminate.
Qed.

(** C2 after [Set("a")] and [Remove("a")]: the counter is 0, as is the
    number of entries. *)
Lemma size_counts_entries_example :
  Size (run pick_first in_map_order set_then_remove New_store) =
    entries (run pick_first in_map_order set_then_remove New_store).
Proof.
  apply (proj1 (proj2 (size_counts_entries pick_first in_map_order set_then_remove))).
  vm_compute. reflexivity.
Defined.

(** C3, where the claim fails: the entry of "a" in [one_entry] expires at
    10, and [Set("a", 2, 10ns)] at time 20 calls its callback on 1. *)
Lemma Set_on_expired_entry_calls_callback :
  entry one_entry "a" = Some {| val := Dyn 1; exp := 10; cb := Some 7%nat |} ∧
  fired one_entry = [] ∧
  fired (Set_ pick_first 20 20 "a" (Dyn 2) 10 [] one_entry) = [Fired "a" 7%nat (Dyn 1)] ∧
  fired (Set_ pick_first 20 20 "a" (Dyn 2) 10 [] one_entry) ≠ fired one_entry.
Proof.
  split_and!; [vm_compute; reflexivity..|].
  vm_compute. discriminate.
Qed.

(** C3 (as amended) on [one_entry]: at time 5 nothing is called, at time
    20 the callback of the expired entry is. *)
Lemma Set_overwrite_example :
  fired (Set_ pick_first 5 5 "a" (Dyn 2) 10 [] one_entry) = fired one_entry ∧
  fired (Set_ pick_first 20 20 "a" (Dyn 2) 10 [] one_entry) =
    fired one_entry ++
    callback_events "a" {| val := Dyn 1; exp := 10; cb := Some 7%nat |}.
Proof.
  assert (entry one_entry "a" = Some {| val := Dyn 1; exp := 10; cb := Some 7%nat |})
    as Hentry by (vm_compute; reflexivity).
  split.
  - apply (proj1 (proj2 (Set_overwrite pick_first 5 5 "a" (Dyn 2) 10 [] one_entry _ Hentry))).
    unfold unexpired. simpl. lia.
  - apply (proj2 (proj2 (Set_overwrite pick_first 20 20 "a" (Dyn 2) 10 [] one_entry _ Hentry))).
    unfold expired. simpl. lia.
Defined.

(** C9, where the claim fails: after [Set("a", 1, 10ns, f7)] and
    [Remove("a")] the pool holds an object whose value is still 1 and whose
    callback is still [f7]. *)
Lemma pool_object_not_reset :
  valuePool (run pick_first in_map_order set_then_remove New_store) = [0%nat] ∧
  deref (run pick_first in_map_order set_then_remove New_store) 0%nat =
    {| val := Dyn 1; exp := 10; cb := Some 7%nat |} ∧
  ¬ pool_reset (run pick_first in_map_order set_then_remove New_store).
Proof.
  split_and!; [vm_compute; reflexivity..|].
  intros Hreset. specialize (Hreset 0%nat).
  assert (0%nat ∈ valuePool (run pick_first in_map_order set_then_remove New_store)) as Hin
    by (vm_compute; left).
  apply Hreset in Hin. vm_compute in Hin. discriminate.
Qed.

(** C9 (as amended) after [Set("a")] and [Remove("a")]: [Set("b", 2, 5ns)]
    reuses the pooled object, and "b" holds exactly what [Set] was given. *)
Lemma pool_object_overwritten_by_Set_example :
  entry (Set_ pick_first 6 6 "b" (Dyn 2) 5 []
           (run pick_first in_map_order set_then_remove New_store)) "b" =
    Some {| val := Dyn 2; exp := 6 + 5; cb := None |} ∧
  m (Set_ pick_first 6 6 "b" (Dyn 2) 5 []
       (run pick_first in_map_order set_then_remove New_store)) !! "b" = Some 0%nat.
Proof.
  split.
  - apply (proj2 (proj2 (pool_object_overwritten_by_Set pick_first in_map_order set_then_remove))
             6 6 "b" (Dyn 2) 5 []).
  - vm_compute. reflexivity.
Defined.

(** * Further properties of the store *)

Section coverage.
Context {K : Type} `{Countable K} {V : Type}.
Variable pick : list ptr → option nat.
Variable order : range_order K.

Implicit Types (t : timedMap K V) (key : K) (vw : valueWrapper V).
Implicit Types (p : ptr) (now : Time) (d : Duration) (value : iface V).
Implicit Types (nows : K → Time).
Implicit Types (o : @op K V) (ops : list (@op K V)).

(** *** Lookups after a write *)

Lemma GetExpires_get now key t :
  GetExpires now key t =
    (match (get now key t).1 with
     | Some p => (exp (deref t p), None)
     | None => (0, Some ErrKeyNotFound)
     end, (get now key t).2).
Proof.
  unfold GetExpires. destruct (get now key t) as [[p|] t'] eqn:Hget; [|done].
  by apply get_Some in Hget as (-> & _ & _).
Qed.

Lemma lookups_unexpired now key t vw :
  entry t key = Some vw → unexpired now vw →
  GetValue now key t = (val vw, t) ∧
  GetExpires now key t = ((exp vw, None), t) ∧
  Contains now key t = (true, t).
Proof.
  intros (p & Hm & <-)%entry_Some Hv.
  by rewrite GetValue_get, GetExpires_get, Contains_get, (get_unexpired _ _ _ p).
Qed.

Lemma lookups_expired now key t vw :
  entry t key = Some vw → expired now vw →
  ∃ t', GetValue now key t = (Nil, t') ∧
    GetExpires now key t = ((0, Some ErrKeyNotFound), t') ∧
    Contains now key t = (false, t') ∧
    entry t' key = None ∧
    fired t' = fired t ++ callback_events key vw.
Proof.
  intros (p & Hm & <-)%entry_Some Hv. exists (remove_vw key p t).
  rewrite GetValue_get, GetExpires_get, Contains_get, (get_expired _ _ _ p) by done.
  split_and!; try done; [apply remove_vw_entry | apply remove_vw_fired].
Qed.

Lemma lookups_absent now key t :
  entry t key = None →
  GetValue now key t = (Nil, t) ∧
  GetExpires now key t = ((0, Some ErrKeyNotFound), t) ∧
  Contains now key t = (false, t).
Proof.
  intros Hm%entry_None.
  by rewrite GetValue_get, GetExpires_get, Contains_get, get_absent.
Qed.

(** X1. Whatever the map held before, after [Set(key, value, d, cb)] the
    lookups of the key up to the new expiry (the second clock reading of
    [Set] plus [d]) find what was set and change nothing: [GetValue] returns
    [value], [GetExpires] the new expiry without an error, [Contains] true.
    The first lookup after the new expiry returns nil, false or
    [ErrKeyNotFound], removes the entry and calls the callback given to
    [Set], if any, on [value]. *)
Theorem Set_then_lookup now now' now2 key value d cbs t :
  let t' := Set_ pick now now' key value d cbs t in
  (now2 ≤ now' + d →
     GetValue now2 key t' = (value, t') ∧
     GetExpires now2 key t' = ((now' + d, None), t') ∧
     Contains now2 key t' = (true, t')) ∧
  (now' + d < now2 →
     ∃ t'', GetValue now2 key t' = (Nil, t'') ∧
       GetExpires now2 key t' = ((0, Some ErrKeyNotFound), t'') ∧
       Contains now2 key t' = (false, t'') ∧
       entry t'' key = None ∧
       (∀ f, cb_arg cbs = Some f → fired t'' = fired t' ++ [Fired key f value]) ∧
       (cb_arg cbs = None → fired t'' = fired t')).
Proof.
  intros t'. pose proof (Set_entry pick now now' key value d cbs t) as Hentry.
  fold t' in Hentry. split.
  - intros Hle. by apply (lookups_unexpired _ _ _ _ Hentry).
  - intros Hlt.
    destruct (lookups_expired now2 key t' _ Hentry Hlt)
      as (t'' & Hg & He & Hc & Hgone & Hfired).
    exists t''. split_and!; try done.
    + intros f Hf. rewrite Hfired. unfold callback_events. simpl. by rewrite Hf.
    + intros Hf. rewrite Hfired. unfold callback_events. simpl.
      by rewrite Hf, app_nil_r.
Qed.

(** X2. On a key with an unexpired entry, [SetExpire(key, d)] returns no
    error and sets the expiry to its own clock reading plus [d]; the value
    and the callback of the entry, the map, the counter, the pool and the
    trace stay. [GetExpires] then returns that expiry up to the moment it is
    reached. When [d] puts the expiry before the next lookup, that lookup
    finds nothing and calls the callback of the entry. *)
Theorem SetExpire_resets_expiry now now' key d t vw :
  entry t key = Some vw → unexpired now vw →
  ∃ t', SetExpire now now' key d t = (None, t') ∧
    entry t' key = Some {| val := val vw; exp := now' + d; cb := cb vw |} ∧
    m t' = m t ∧ size t' = size t ∧ valuePool t' = valuePool t ∧
    fired t' = fired t ∧
    (∀ now2, now2 ≤ now' + d →
       GetExpires now2 key t' = ((now' + d, None), t') ∧
       GetValue now2 key t' = (val vw, t')) ∧
    (∀ now2, now' + d < now2 →
       (GetValue now2 key t').1 = Nil ∧
       fired (GetValue now2 key t').2 = fired t ++ callback_events key vw).
Proof.
  intros (p & Hm & <-)%entry_Some Hv.
  unfold SetExpire, Add. rewrite (get_unexpired _ _ _ p) by done.
  eexists. split; [done|].
  pose proof (write_entry key p
    {| val := val (deref t p); exp := now' + d; cb := cb (deref t p) |} t Hm)
    as Hentry.
  split_and!; try done.
  - intros now2 Hle.
    destruct (lookups_unexpired now2 key _ _ Hentry Hle) as (Hg & He & _).
    by split.
  - intros now2 Hlt.
    destruct (lookups_expired now2 key _ _ Hentry Hlt)
      as (t'' & Hg & _ & _ & _ & Hfired).
    rewrite Hg. simpl. split; [done|]. by rewrite Hfired.
Qed.

(** X3. Calls of [Refresh] add up: on a key with an unexpired entry,
    [Refresh(key, d1)] followed by [Refresh(key, d2)], called while the
    entry is still unexpired, leaves the state that one [Refresh(key, d1 +
    d2)] leaves; in particular [Refresh(key, d)] and then [Refresh(key, -d)]
    give back the state before the two calls. *)
Theorem Refresh_composes now now2 key d1 d2 t vw :
  entry t key = Some vw → unexpired now vw → now2 ≤ exp vw + d1 →
  Refresh now2 key d2 (Refresh now key d1 t).2 = Refresh now key (d1 + d2) t ∧
  (d2 = - d1 → separated t → (Refresh now2 key d2 (Refresh now key d1 t).2).2 = t).
Proof.
  intros (p & Hm & <-)%entry_Some Hv Hle.
  assert (∀ d, Refresh now key d t =
    (None, write p {| val := val (deref t p); exp := exp (deref t p) + d;
                      cb := cb (deref t p) |} t)) as Hfirst.
  { intros d. unfold Refresh. by rewrite (get_unexpired _ _ _ p). }
  rewrite !Hfirst. cbn [snd].
  set (vw1 := {| val := val (deref t p); exp := exp (deref t p) + d1;
                 cb := cb (deref t p) |}).
  assert (Refresh now2 key d2 (write p vw1 t) =
    (None, write p {| val := val vw1; exp := exp vw1 + d2; cb := cb vw1 |}
             (write p vw1 t))) as Hsecond.
  { unfold Refresh. rewrite (get_unexpired _ _ _ p).
    - by rewrite write_deref.
    - done.
    - rewrite write_deref. unfold unexpired, vw1. simpl. lia. }
  rewrite Hsecond. unfold write. simpl. rewrite insert_insert_eq.
  split.
  - do 4 f_equal. lia.
  - intros -> [Hma _ _ _ _]. destruct t as [hp mm pool sz tr]. simpl in *.
    f_equal. apply map_eq. intros q. destruct (decide (q = p)) as [->|Hne].
    + rewrite lookup_insert_eq. unfold deref in *. simpl in *.
      specialize (Hma key p Hm). apply elem_of_dom in Hma as [vw Hvw].
      rewrite (lookup_total_correct _ _ _ Hvw), Hvw. destruct vw. simpl.
      do 2 f_equal. lia.
    + by rewrite lookup_insert_ne.
Qed.

(** *** Removing again *)


Lemma Range_nil_visit (f : K → ptr → timedMap K V → timedMap K V) t :
  m t = ∅ → Range f (visit order (m t)) t = t.
Proof.
  intros Hm. assert (visit order (m t) = []) as ->; [|done].
  apply Permutation_nil_r. by rewrite (visit_perm order (m t)), Hm, map_to_list_empty.
Qed.

(** X5. After [Flush()] the map behaves as an empty one, in whatever order
    [Range] visited the entries: a second [Flush()] and a sweep change
    nothing, and for every key [GetValue] returns nil, [Contains] false and
    [GetExpires] [ErrKeyNotFound], without a change of the state. *)
Theorem Flush_twice nows now key t :
  let t' := Flush order t in
  Flush order t' = t' ∧
  cleanup order nows t' = t' ∧
  Remove now key t' = t' ∧
  GetValue now key t' = (Nil, t') ∧
  Contains now key t' = (false, t') ∧
  GetExpires now key t' = ((0, Some ErrKeyNotFound), t').
Proof.
  intros t'. assert (m t' = ∅) as Hm by apply Flush_m.
  assert (m t' !! key = None) as Hgone by (by rewrite Hm).
  destruct (lookups_absent now key t') as (Hg & He & Hc); [by apply entry_None|].
  split_and!; try done.
  - by apply Range_nil_visit.
  - by apply Range_nil_visit.
  - by apply Remove_absent.
Qed.

(** *** One key at a time *)

Lemma get_entry_ne now key key' t :
  key ≠ key' → entry (get now key t).2 key' = entry t key'.
Proof.
  intros Hne. destruct (get now key t) as [[p|] t'] eqn:Hget.
  - by apply get_Some in Hget as (-> & _).
  - apply get_None in Hget as [[_ ->]|(p & _ & _ & ->)]; [done|].
    by apply remove_vw_entry_ne.
Qed.

Lemma step_entry_ne o key key' t :
  separated t → op_key o = Some key → key ≠ key' →
  entry (step pick order o t) key' = entry t key'.
Proof.
  intros Hsep Ho Hne.
  destruct o as [now now' k value d cbs|now k|now k|now now' k d|now k d
    |now k|now k| | |nows]; simpl in Ho; try done;
    injection Ho as ->; simpl.
  - by apply Set_entry_ne.
  - rewrite (proj1 (step_read now key t)). by apply get_entry_ne.
  - rewrite (proj1 (proj2 (step_read now key t))). by apply get_entry_ne.
  - unfold SetExpire. destruct (get now key t) as [[p|] t'] eqn:Hget.
    + apply get_Some in Hget as (-> & Hm & _). by apply (write_entry_ne key).
    + change t' with (None (A:=ptr), t').2.
      rewrite <-Hget. by apply get_entry_ne.
  - unfold Refresh. destruct (get now key t) as [[p|] t'] eqn:Hget.
    + apply get_Some in Hget as (-> & Hm & _). by apply (write_entry_ne key).
    + change t' with (None (A:=ptr), t').2.
      rewrite <-Hget. by apply get_entry_ne.
  - rewrite (proj2 (proj2 (step_read now key t))). by apply get_entry_ne.
  - destruct (m t !! key) as [p|] eqn:Hm.
    + rewrite (Remove_present _ _ _ p) by done. by apply remove_vw_entry_ne.
    + by rewrite Remove_absent.
Qed.

(** X6. In every state reached from the empty map, an operation called with
    one key ([Set], [GetValue], [GetExpires], [SetExpire], [Refresh],
    [Contains], [Remove]) leaves the entry of every other key as it is:
    same value, same expiry, same callback. (The writes of [SetExpire] and
    [Refresh] go through a pointer; no two keys share one.) *)
Theorem other_keys_untouched ops o key key' :
  op_key o = Some key → key ≠ key' →
  entry (step pick order o (run pick order ops New_store)) key' =
    entry (run pick order ops New_store) key'.
Proof.
  intros Ho Hne. apply (step_entry_ne o key); [|done..].
  apply separated_run.
Qed.

(** *** The sweep *)

Lemma sweep_events_heap nows t t' l :
  heap t' = heap t → sweep_events nows t' l = sweep_events nows t l.
Proof.
  intros Hheap. unfold sweep_events, removal_events, kept, deref.
  by rewrite Hheap.
Qed.

Lemma sweep_events_cons nows t key p l :
  sweep_events nows t ((key, p) :: l) =
    (if decide (expired (nows key) (deref t p))
     then callback_events key (deref t p) else []) ++ sweep_events nows t l.
Proof.
  unfold sweep_events. rewrite filter_cons. unfold kept at 1. cbn [fst snd].
  destruct (decide (expired (nows key) (deref t p))) as [Hv|Hv].
  - rewrite decide_True by (by intros Hk; apply Hk). by rewrite removal_events_cons.
  - by rewrite decide_False by (by intros Hk; apply Hk).
Qed.

Lemma Range_get_fired nows l t :
  NoDup l.*1 → (∀ key p, (key, p) ∈ l → m t !! key = Some p) →
  fired (Range (λ key _ t, (get (nows key) key t).2) l t) =
    fired t ++ sweep_events nows t l.
Proof.
  revert t. induction l as [|[k p0] l IH]; intros t Hnd Hl.
  - unfold sweep_events. cbn. by rewrite app_nil_r.
  - rewrite fmap_cons in Hnd. apply NoDup_cons in Hnd as [Hnotin Hnd].
    assert (m t !! k = Some p0) as Hk by (apply Hl; left).
    cbn [Range foldl fst snd].
    change (foldl _ ?t' l) with
      (Range (λ key _ t, (get (nows key) key t).2) l t').
    rewrite IH; [|done|].
    + rewrite (sweep_events_heap nows t) by apply get_heap.
      rewrite sweep_events_cons, app_assoc. f_equal.
      destruct (decide (expired (nows k) (deref t p0))) as [Hv|Hv].
      * rewrite (get_expired _ _ _ p0) by done. apply remove_vw_fired.
      * rewrite (get_unexpired _ _ _ p0); [by rewrite app_nil_r | done |].
        by destruct (expired_or_not (nows k) (deref t p0)).
    + intros key' p' Hin. rewrite (get_m _ _ _ p0) by done.
      assert (k ≠ key') as Hne.
      { intros ->. apply Hnotin, list_elem_of_fmap. by exists (key', p'). }
      case_decide; [rewrite lookup_delete_ne by done|]; apply Hl; by right.
Qed.

Lemma filter_fst_NoDup (P : K * ptr → Prop) `{!∀ x, Decision (P x)}
    (l : list (K * ptr)) :
  NoDup l.*1 → NoDup (filter P l).*1.
Proof.
  intros Hnd. eapply sublist_NoDup; [done|].
  apply fmap_sublist, sublist_filter.
Qed.

Lemma cleanup_effect nows t :
  ∃ evs, fired (cleanup order nows t) = fired t ++ evs ∧
    (∀ key vw, entry t key = Some vw → expired (nows key) vw →
       entry (cleanup order nows t) key = None ∧
       events_of key evs = callback_events key vw) ∧
    (∀ key vw, entry t key = Some vw → unexpired (nows key) vw →
       entry (cleanup order nows t) key = Some vw ∧
       events_of key evs = []) ∧
    (∀ key, entry t key = None →
       entry (cleanup order nows t) key = None ∧ events_of key evs = []).
Proof.
  exists (sweep_events nows t (visit order (m t))).
  assert (∀ key, entry (cleanup order nows t) key =
    match entry t key with
    | Some vw => if decide (expired (nows key) vw) then None else Some vw
    | None => None
    end) as Hentry.
  { intros key. unfold entry, deref. rewrite cleanup_heap, cleanup_m.
    rewrite map_lookup_filter. destruct (m t !! key) as [p|]; [|done].
    cbn [mbind option_bind fmap option_fmap option_map]. unfold kept, deref.
    cbn [fst snd].
    destruct (decide (expired (nows key) (heap t !!! p))) as [Hv|Hv].
    - by rewrite option_guard_False by (by intros ?).
    - by rewrite option_guard_True. }
  split_and!.
  - unfold cleanup. apply Range_get_fired; [apply visit_NoDup|].
    intros ??. apply visit_elem.
  - intros key vw Hvw Hv. rewrite Hentry, Hvw, decide_True by done.
    split; [done|]. apply entry_Some in Hvw as (p & Hm & <-).
    apply events_of_removal_present.
    + apply filter_fst_NoDup, visit_NoDup.
    + apply list_elem_of_filter. split; [|by apply visit_elem].
      unfold kept. simpl. by intros Hk.
  - intros key vw Hvw Hv.
    assert (¬ expired (nows key) vw) as Hn by (intros ?; by eapply expired_unexpired).
    rewrite Hentry, Hvw, decide_False by done. split; [done|].
    apply events_of_removal_absent.
    intros ([key' p] & -> & [Hk Hin%visit_elem]%list_elem_of_filter)%list_elem_of_fmap.
    apply Hk. unfold kept. simpl in *.
    apply entry_Some in Hvw as (q & Hq & <-). by simplify_eq.
  - intros key Hnone. rewrite Hentry, Hnone. split; [done|].
    apply events_of_removal_absent.
    intros ([key' p] & -> & [_ Hin%visit_elem]%list_elem_of_filter)%list_elem_of_fmap.
    apply entry_None in Hnone. simpl in *. congruence.
Qed.

(** X7. One sweep of the cleaner, whatever the order of [Range] and the
    clock readings: every entry that is expired when the sweep visits it is
    deleted and its callback, if it has one, is called once on its value;
    every other entry stays as it is and nothing is called for it; keys
    without an entry stay without one. *)
Theorem cleanup_removes_the_expired nows t :
  ∃ evs, fired (cleanup order nows t) = fired t ++ evs ∧
    (∀ key vw, entry t key = Some vw → expired (nows key) vw →
       entry (cleanup order nows t) key = None ∧
       events_of key evs = callback_events key vw) ∧
    (∀ key vw, entry t key = Some vw → unexpired (nows key) vw →
       entry (cleanup order nows t) key = Some vw ∧
       events_of key evs = []) ∧
    (∀ key, entry t key = None →
       entry (cleanup order nows t) key = None ∧ events_of key evs = []).
Proof. apply cleanup_effect. Qed.

(** *** Keys that were never set *)

Lemma get_absent_stays now key key' t :
  m t !! key' = None → m (get now key t).2 !! key' = None.
Proof.
  intros Hnone. destruct (get now key t) as [[p|] t'] eqn:Hget.
  - by apply get_Some in Hget as (-> & _).
  - apply get_None in Hget as [[_ ->]|(p & _ & _ & ->)]; [done|].
    cbn [snd]. rewrite remove_vw_m. by apply lookup_delete_None; right.
Qed.

Lemma step_absent_stays o key t :
  ¬ sets_key key o → m t !! key = None → m (step pick order o t) !! key = None.
Proof.
  intros Hset Hnone.
  destruct o as [now now' k value d cbs|now k|now k|now now' k d|now k d
    |now k|now k| | |nows]; simpl.
  - assert (k ≠ key) as Hne by (intros ->; by apply Hset).
    destruct (m t !! k) as [p|] eqn:Hk.
    + destruct (expired_or_not now (deref t p)) as [Hv|Hv].
      * rewrite (Set_expired pick _ _ _ _ _ _ _ p) by done.
        destruct (Set_new_m pick k
          {| val := value; exp := now' + d; cb := cb_arg cbs |}
          (remove_vw k p t)) as [q ->].
        rewrite lookup_insert_ne, remove_vw_m by done.
        by apply lookup_delete_None; right.
      * by rewrite (Set_unexpired pick _ _ _ _ _ _ _ p).
    + rewrite Set_absent by done.
      destruct (Set_new_m pick k
        {| val := value; exp := now' + d; cb := cb_arg cbs |} t) as [q ->].
      by rewrite lookup_insert_ne.
  - rewrite (proj1 (step_read now k t)). by apply get_absent_stays.
  - rewrite (proj1 (proj2 (step_read now k t))). by apply get_absent_stays.
  - unfold SetExpire. pose proof (get_absent_stays now k key t Hnone) as Hg.
    by destruct (get now k t) as [[p|] t'].
  - unfold Refresh. pose proof (get_absent_stays now k key t Hnone) as Hg.
    by destruct (get now k t) as [[p|] t'].
  - rewrite (proj2 (proj2 (step_read now k t))). by apply get_absent_stays.
  - destruct (m t !! k) as [p|] eqn:Hk.
    + rewrite (Remove_present _ _ _ p) by done. rewrite remove_vw_m.
      by apply lookup_delete_None; right.
    + by rewrite Remove_absent.
  - by rewrite Flush_m.
  - done.
  - rewrite cleanup_m. apply map_lookup_filter_None. by left.
Qed.

Lemma run_absent_stays ops key t :
  Forall (λ o, ¬ sets_key key o) ops → m t !! key = None →
  m (run pick order ops t) !! key = None.
Proof.
  revert t. induction ops as [|o ops IH]; intros t Hops Hnone; [done|].
  apply Forall_cons in Hops as [Ho Hops]. simpl.
  apply IH; [done|]. by apply step_absent_stays.
Qed.

(** X8. Entries come from [Set] only: after any sequence of operations on a
    new map in which [Set] was never called with [key], the key has no
    entry, so that [GetValue(key)] returns nil, [Contains(key)] false and
    [GetExpires(key)] [ErrKeyNotFound], and [Remove(key)] changes nothing. *)
Theorem key_never_set_is_absent ops key now :
  Forall (λ o, ¬ sets_key key o) ops →
  let t := run pick order ops New_store in
  entry t key = None ∧
  GetValue now key t = (Nil, t) ∧
  Contains now key t = (false, t) ∧
  GetExpires now key t = ((0, Some ErrKeyNotFound), t) ∧
  Remove now key t = t.
Proof.
  intros Hops t.
  assert (m t !! key = None) as Hnone by (by apply run_absent_stays).
  destruct (lookups_absent now key t) as (Hg & He & Hc); [by apply entry_None|].
  split_and!; try done; [by apply entry_None | by apply Remove_absent].
Qed.

(** *** Bounds of the counter *)

Lemma get_entries_le now key t : entries (get now key t).2 ≤ entries t.
Proof.
  destruct (get now key t) as [[p|] t'] eqn:Hget.
  - apply get_Some in Hget as (-> & _). cbn [snd]. lia.
  - apply get_None in Hget as [[_ ->]|(p & Hm & _ & ->)]; cbn [snd]; [lia|].
    rewrite remove_vw_entries by done. lia.
Qed.

Lemma step_entries_le o t :
  entries (step pick order o t) ≤ entries t + (if is_Set o then 1 else 0).
Proof.
  destruct o as [now now' k value d cbs|now k|now k|now now' k d|now k d
    |now k|now k| | |nows]; simpl.
  - destruct (m t !! k) as [p|] eqn:Hk.
    + destruct (expired_or_not now (deref t p)) as [Hv|Hv].
      * rewrite (Set_expired pick _ _ _ _ _ _ _ p) by done.
        rewrite Set_new_entries, remove_vw_entries
          by (done || by rewrite remove_vw_m, lookup_delete_eq). lia.
      * rewrite (Set_unexpired pick _ _ _ _ _ _ _ p) by done.
        unfold entries. simpl. lia.
    + rewrite Set_absent, Set_new_entries by done. lia.
  - rewrite (proj1 (step_read now k t)). pose proof (get_entries_le now k t). lia.
  - rewrite (proj1 (proj2 (step_read now k t))).
    pose proof (get_entries_le now k t). lia.
  - unfold SetExpire. pose proof (get_entries_le now k t) as Hg.
    destruct (get now k t) as [[p|] t']; unfold entries in *; simpl in *; lia.
  - unfold Refresh. pose proof (get_entries_le now k t) as Hg.
    destruct (get now k t) as [[p|] t']; unfold entries in *; simpl in *; lia.
  - rewrite (proj2 (proj2 (step_read now k t))).
    pose proof (get_entries_le now k t). lia.
  - destruct (m t !! k) as [p|] eqn:Hk.
    + rewrite (Remove_present _ _ _ p), remove_vw_entries by done. lia.
    + rewrite Remove_absent by done. lia.
  - unfold entries. rewrite Flush_m, map_size_empty. lia.
  - lia.
  - rewrite cleanup_entries. lia.
Qed.

Lemma Set_calls_cons o ops :
  Set_calls (o :: ops) = (if is_Set o then 1 else 0) + Set_calls ops.
Proof.
  unfold Set_calls. rewrite filter_cons.
  destruct (decide (is_Set o = true)) as [Ho|Ho].
  - rewrite Ho. cbn [length]. lia.
  - destruct (is_Set o); [done|]. lia.
Qed.

Lemma run_entries_le ops t :
  entries (run pick order ops t) ≤ entries t + Set_calls ops.
Proof.
  revert t. induction ops as [|o ops IH]; intros t.
  - unfold Set_calls. simpl. lia.
  - simpl. rewrite Set_calls_cons.
    pose proof (IH (step pick order o t)). pose proof (step_entries_le o t). lia.
Qed.

(** X9. After fewer than 2^63 operations on a new map, [Size()] is exactly
    the number of entries in the map (the counter has not wrapped around),
    it is not negative, and it is at most the number of calls of [Set]
    made. *)
Theorem Size_bounds ops :
  Z.of_nat (length ops) < 2 ^ 63 →
  Size (run pick order ops New_store) = entries (run pick order ops New_store) ∧
  0 ≤ Size (run pick order ops New_store) ≤ Set_calls ops ∧
  Set_calls ops ≤ Z.of_nat (length ops).
Proof.
  intros Hlen.
  assert (Set_calls ops ≤ Z.of_nat (length ops)) as Hcalls.
  { unfold Set_calls. pose proof (length_filter (λ o, is_Set o = true) ops). lia. }
  pose proof (run_entries_le ops New_store) as Hle.
  assert (entries (New_store : timedMap K V) = 0) as Hzero by done.
  pose proof (entries_nonneg (run pick order ops New_store)) as Hpos.
  assert (Size (run pick order ops New_store) =
          entries (run pick order ops New_store)) as Hsize.
  { apply size_ok_exact; [apply size_ok_run | lia]. }
  rewrite Hsize. split_and!; try done; lia.
Qed.

(** *** Allocated objects *)

Lemma elem_of_delete_ne (l : list ptr) i q r :
  l !! i = Some q → r ∈ l → r ≠ q → r ∈ delete i l.
Proof.
  intros Hi Hr Hne. rewrite <-(take_drop_middle l i q Hi) in Hr.
  rewrite delete_take_drop.
  apply elem_of_app in Hr as [Hr|[Hr|Hr]%elem_of_cons]; set_solver.
Qed.

Lemma accounted_remove_vw key p t :
  m t !! key = Some p → accounted t → accounted (remove_vw key p t).
Proof.
  intros Hm Hacc q. rewrite remove_vw_heap, remove_vw_m, remove_vw_valuePool.
  intros [[key' Hq]|Hq]%Hacc.
  - destruct (decide (key' = key)) as [->|Hne].
    + right. simplify_eq. left.
    + left. exists key'. by rewrite lookup_delete_ne.
  - right. by right.
Qed.

Lemma accounted_get now key t : accounted t → accounted (get now key t).2.
Proof.
  intros Hacc. destruct (get now key t) as [[p|] t'] eqn:Hget.
  - by apply get_Some in Hget as (-> & _).
  - apply get_None in Hget as [[_ ->]|(p & Hm & _ & ->)]; [done|].
    by apply accounted_remove_vw.
Qed.

Lemma accounted_write key p vw t :
  m t !! key = Some p → accounted t → accounted (write p vw t).
Proof.
  intros Hm Hacc q. simpl. rewrite dom_insert_L.
  intros [->%elem_of_singleton|Hq]%elem_of_union; [left; by exists key|].
  by apply Hacc.
Qed.

Lemma accounted_Set_new key vw t :
  m t !! key = None → accounted t → accounted (Set_new pick key vw t).
Proof.
  intros Hm Hacc r. unfold Set_new.
  destruct (pool_Get_cases pick t) as [(i & q & Hi & ->) | ->]; simpl.
  - rewrite dom_insert_L.
    intros [->%elem_of_singleton|Hr]%elem_of_union.
    { left. exists key. by rewrite lookup_insert_eq. }
    destruct (decide (r = q)) as [->|Hne].
    { left. exists key. by rewrite lookup_insert_eq. }
    apply Hacc in Hr as [[key' Hr]|Hr].
    + left. exists key'. rewrite lookup_insert_ne; [done|]. congruence.
    + right. by apply (elem_of_delete_ne _ _ q).
  - rewrite !dom_insert_L.
    intros [->%elem_of_singleton|[->%elem_of_singleton|Hr]%elem_of_union]%elem_of_union.
    { left. exists key. by rewrite lookup_insert_eq. }
    { left. exists key. by rewrite lookup_insert_eq. }
    apply Hacc in Hr as [[key' Hr]|Hr]; [|by right].
    left. exists key'. rewrite lookup_insert_ne; [done|]. congruence.
Qed.

Lemma accounted_Set now now' key value d cbs t :
  accounted t → accounted (Set_ pick now now' key value d cbs t).
Proof.
  intros Hacc. destruct (m t !! key) as [p|] eqn:Hm.
  - destruct (expired_or_not now (deref t p)) as [Hv|Hv].
    + rewrite (Set_expired pick _ _ _ _ _ _ _ p) by done.
      apply accounted_Set_new.
      * by rewrite remove_vw_m, lookup_delete_eq.
      * by apply accounted_remove_vw.
    + rewrite (Set_unexpired pick _ _ _ _ _ _ _ p) by done.
      by apply (accounted_write key).
  - rewrite Set_absent by done. by apply accounted_Set_new.
Qed.

Lemma accounted_Range_remove l t :
  NoDup l.*1 → (∀ key p, (key, p) ∈ l → m t !! key = Some p) →
  accounted t → accounted (Range remove_vw l t).
Proof.
  revert t. induction l as [|[key p] l IH]; intros t Hnd Hl Hacc; [done|].
  rewrite fmap_cons in Hnd. apply NoDup_cons in Hnd as [Hnotin Hnd].
  simpl. apply IH; [done| |].
  - intros key' p' Hin. rewrite remove_vw_m, lookup_delete_ne.
    + apply Hl. by right.
    + intros ->. apply Hnotin, list_elem_of_fmap. by exists (key', p').
  - apply accounted_remove_vw; [|done]. apply Hl. left.
Qed.

Lemma accounted_step o t : accounted t → accounted (step pick order o t).
Proof.
  intros Hacc. destruct o as [now now' key value d cbs|now key|now key
    |now now' key d|now key d|now key|now key| | |nows]; simpl.
  - by apply accounted_Set.
  - rewrite (proj1 (step_read now key t)). by apply accounted_get.
  - rewrite (proj1 (proj2 (step_read now key t))). by apply accounted_get.
  - unfold SetExpire. destruct (get now key t) as [[p|] t'] eqn:Hget.
    + apply get_Some in Hget as (-> & Hm & _). by apply (accounted_write key).
    + change t' with (None (A:=ptr), t').2. rewrite <-Hget.
      by apply accounted_get.
  - unfold Refresh. destruct (get now key t) as [[p|] t'] eqn:Hget.
    + apply get_Some in Hget as (-> & Hm & _). by apply (accounted_write key).
    + change t' with (None (A:=ptr), t').2. rewrite <-Hget.
      by apply accounted_get.
  - rewrite (proj2 (proj2 (step_read now key t))). by apply accounted_get.
  - destruct (m t !! key) as [p|] eqn:Hm.
    + rewrite (Remove_present _ _ _ p) by done. by apply accounted_remove_vw.
    + by rewrite Remove_absent.
  - apply accounted_Range_remove; [apply visit_NoDup| |done].
    intros ??. apply visit_elem.
  - done.
  - unfold cleanup. apply Range_invariant; [|done]. intros key _ t'.
    apply accounted_get.
Qed.

Lemma accounted_run ops : accounted (run pick order ops (New_store : timedMap K V)).
Proof.
  apply run_invariant; [apply accounted_step|]. intros p Hp.
  simpl in Hp. by rewrite dom_empty_L in Hp.
Qed.

(** X10. In every state reached from the empty map no pointer is shared and
    no object is lost: each key has an object of its own, an object idle in
    the pool is not the entry of a key and is in the pool once, and every
    object ever allocated is the entry of a key or idle in the pool. So the
    number of objects allocated is the number of entries plus the number of
    idle objects: [Set] makes the pool's [New] allocate only when the pool
    hands out no idle object. *)
Theorem objects_accounted_for ops :
  let t := run pick order ops New_store in
  (∀ p, p ∈ dom (heap t) ↔ (∃ key, m t !! key = Some p) ∨ p ∈ valuePool t) ∧
  (∀ k1 k2 p, m t !! k1 = Some p → m t !! k2 = Some p → k1 = k2) ∧
  (∀ key p, m t !! key = Some p → p ∉ valuePool t) ∧
  NoDup (valuePool t) ∧
  Z.of_nat (base.size (dom (heap t))) =
    entries t + Z.of_nat (length (valuePool t)).
Proof.
  intros t. pose proof (separated_run pick order ops) as [Hma Hpa Hnd Hpm Hinj].
  pose proof (accounted_run ops) as Hacc. fold t in Hma, Hpa, Hnd, Hpm, Hinj, Hacc.
  assert (∀ p, p ∈ dom (heap t) ↔ (∃ key, m t !! key = Some p) ∨ p ∈ valuePool t)
    as Hiff.
  { intros p. split; [apply Hacc|]. intros [[key Hp]|Hp]; [by eapply Hma|by apply Hpa]. }
  split_and!; try done.
  assert (NoDup ((map_to_list (m t)).*2 ++ valuePool t)) as Hall.
  { apply NoDup_app. split_and!; [|intros p|done].
    - apply NoDup_fmap_2_strong; [|apply NoDup_map_to_list].
      intros [k1 p1] [k2 p2] H1%elem_of_map_to_list H2%elem_of_map_to_list Heq.
      simpl in Heq. subst p2. f_equal. by eapply Hinj.
    - intros ([key q] & -> & Hin%elem_of_map_to_list)%list_elem_of_fmap.
      by eapply Hpm. }
  assert (dom (heap t) = list_to_set ((map_to_list (m t)).*2 ++ valuePool t))
    as ->.
  { apply set_eq. intros p. rewrite Hiff, elem_of_list_to_set, elem_of_app.
    split; (intros [Hp|Hp]; [left|by right]).
    - destruct Hp as [key Hp]. apply list_elem_of_fmap. exists (key, p).
      split; [done|]. by apply elem_of_map_to_list.
    - apply list_elem_of_fmap in Hp as ([key q] & -> & Hin%elem_of_map_to_list).
      by exists key. }
  rewrite size_list_to_set by done.
  rewrite length_app, length_fmap, length_map_to_list. unfold entries. lia.
Qed.

(** *** The calls of the callbacks *)

(** What an operation called with [key] does to the entry of that key and
    to the trace: it keeps the value and the callback of the entry and calls
    nothing; or it removes the entry and makes the calls of its removal; or
    it is a [Set], which leaves its own entry, after the calls of the
    removal of the expired entry if there was one. *)
Lemma keyed_step_cases o key t :
  op_key o = Some key →
  (fired (step pick order o t) = fired t ∧
   ∀ vw', entry (step pick order o t) key = Some vw' →
     ∃ vw, entry t key = Some vw ∧ val vw' = val vw ∧ cb vw' = cb vw) ∨
  (∃ vw, entry t key = Some vw ∧
     fired (step pick order o t) = fired t ++ callback_events key vw ∧
     entry (step pick order o t) key = None) ∨
  (∃ now now' value d cbs, o = OpSet now now' key value d cbs ∧
     entry (step pick order o t) key =
       Some {| val := value; exp := now' + d; cb := cb_arg cbs |} ∧
     (fired (step pick order o t) = fired t ∨
      ∃ vw, entry t key = Some vw ∧
        fired (step pick order o t) = fired t ++ callback_events key vw)).
Proof.
  intros Ho.
  assert (∀ now, (get now key t).2 = t ∧
     (∀ p, (get now key t).1 = Some p → m t !! key = Some p) ∨
     ∃ p, m t !! key = Some p ∧ get now key t = (None, remove_vw key p t))
    as Hget.
  { intros now. destruct (get now key t) as [[p|] t'] eqn:Hg.
    - apply get_Some in Hg as (-> & Hm & _). left. split; [done|].
      by intros ? [= <-].
    - apply get_None in Hg as [[_ ->]|(p & Hm & _ & ->)]; [by left|].
      right. by exists p. }
  assert (∀ p, m t !! key = Some p →
    ∃ vw, entry t key = Some vw ∧
      fired (remove_vw key p t) = fired t ++ callback_events key vw ∧
      entry (remove_vw key p t) key = None) as Hremoved.
  { intros p Hm. exists (deref t p). split_and!.
    - apply entry_Some. eauto.
    - apply remove_vw_fired.
    - apply remove_vw_entry. }
  assert (∀ now, (fired (get now key t).2 = fired t ∧
     ∀ vw', entry (get now key t).2 key = Some vw' →
       ∃ vw, entry t key = Some vw ∧ val vw' = val vw ∧ cb vw' = cb vw) ∨
    (∃ vw, entry t key = Some vw ∧
       fired (get now key t).2 = fired t ++ callback_events key vw ∧
       entry (get now key t).2 key = None)) as Hread.
  { intros now. destruct (Hget now) as [[-> _]|(p & Hm & ->)].
    - left. split; [done|]. intros vw' Hvw'. by exists vw'.
    - right. by apply Hremoved. }
  destruct o as [now now' k value d cbs|now k|now k|now now' k d|now k d
    |now k|now k| | |nows]; simpl in Ho; try done;
    injection Ho as ->; simpl.
  - right. right. exists now, now', value, d, cbs. split; [done|].
    split; [apply Set_entry|].
    destruct (m t !! key) as [p|] eqn:Hm.
    + destruct (expired_or_not now (deref t p)) as [Hv|Hv].
      * right. exists (deref t p). split; [apply entry_Some; eauto|].
        rewrite (Set_expired pick _ _ _ _ _ _ _ p) by done.
        by rewrite Set_new_fired, remove_vw_fired.
      * left. by rewrite (Set_unexpired pick _ _ _ _ _ _ _ p).
    + left. rewrite Set_absent by done. apply Set_new_fired.
  - rewrite (proj1 (step_read now key t)).
    destruct (Hread now) as [?|?]; [by left | right; by left].
  - rewrite (proj1 (proj2 (step_read now key t))).
    destruct (Hread now) as [?|?]; [by left | right; by left].
  - unfold SetExpire. destruct (Hget now) as [[Heq Hp]|(p & Hm & ->)].
    + left. destruct (get now key t) as [[p|] t']; simpl in *; subst t'.
      * split; [done|]. intros vw'. rewrite (write_entry key) by by apply Hp.
        intros [= <-]. simpl. exists (deref t p). split; [|done].
        apply entry_Some. exists p. split; [by apply Hp | done].
      * split; [done|]. intros vw' Hvw'. by exists vw'.
    + right. left. by apply Hremoved.
  - unfold Refresh. destruct (Hget now) as [[Heq Hp]|(p & Hm & ->)].
    + left. destruct (get now key t) as [[p|] t']; simpl in *; subst t'.
      * split; [done|]. intros vw'. rewrite (write_entry key) by by apply Hp.
        intros [= <-]. simpl. exists (deref t p). split; [|done].
        apply entry_Some. exists p. split; [by apply Hp | done].
      * split; [done|]. intros vw' Hvw'. by exists vw'.
    + right. left. by apply Hremoved.
  - rewrite (proj2 (proj2 (step_read now key t))).
    destruct (Hread now) as [?|?]; [by left | right; by left].
  - destruct (m t !! key) as [p|] eqn:Hm.
    + right. left. rewrite (Remove_present _ _ _ p) by done. by apply Hremoved.
    + left. rewrite Remove_absent by done. split; [done|].
      intros vw' Hvw'. by exists vw'.
Qed.

Lemma events_of_callback_events_ne key key' vw :
  key' ≠ key → events_of key (callback_events key' vw) = [].
Proof. intros Hne. by rewrite events_of_callback_events, decide_False. Qed.

Lemma events_of_callback_events_eq key vw :
  events_of key (callback_events key vw) = callback_events key vw.
Proof. by rewrite events_of_callback_events, decide_True. Qed.

(** What any operation does to the entry of [key] and to the calls made for
    [key], in a state without shared pointers. *)
Lemma step_key_cases o key t :
  separated t →
  ∃ evs, fired (step pick order o t) = fired t ++ evs ∧
    ((events_of key evs = [] ∧
      ∀ vw', entry (step pick order o t) key = Some vw' →
        ∃ vw, entry t key = Some vw ∧ val vw' = val vw ∧ cb vw' = cb vw) ∨
     (∃ vw, entry t key = Some vw ∧
        events_of key evs = callback_events key vw ∧
        entry (step pick order o t) key = None) ∨
     (∃ now now' value d cbs, o = OpSet now now' key value d cbs ∧
        entry (step pick order o t) key =
          Some {| val := value; exp := now' + d; cb := cb_arg cbs |} ∧
        (events_of key evs = [] ∨
         ∃ vw, entry t key = Some vw ∧
           events_of key evs = callback_events key vw))).
Proof.
  intros Hsep. destruct (op_key o) as [k|] eqn:Ho.
  - destruct (decide (k = key)) as [->|Hne].
    + destruct (keyed_step_cases o key t Ho)
        as [[Hf He]|[(vw & Hvw & Hf & He)|(now & now' & value & d & cbs & -> & He & Hf)]].
      * exists []. rewrite app_nil_r. split; [done|]. by left.
      * exists (callback_events key vw). split; [done|]. right. left.
        exists vw. by rewrite events_of_callback_events_eq.
      * destruct Hf as [Hf|(vw & Hvw & Hf)].
        -- exists []. rewrite app_nil_r. split; [done|]. right. right.
           exists now, now', value, d, cbs. split_and!; try done. by left.
        -- exists (callback_events key vw). split; [done|]. right. right.
           exists now, now', value, d, cbs. split_and!; try done. right.
           exists vw. by rewrite events_of_callback_events_eq.
    + assert (∃ evs, fired (step pick order o t) = fired t ++ evs ∧
                events_of key evs = []) as (evs & Hf & Hevs).
      { destruct (keyed_step_cases o k t Ho)
          as [[Hf _]|[(vw & _ & Hf & _)|(? & ? & ? & ? & ? & _ & _ & [Hf|(vw & _ & Hf)])]].
        - exists []. by rewrite app_nil_r.
        - exists (callback_events k vw). split; [done|].
          by apply events_of_callback_events_ne.
        - exists []. by rewrite app_nil_r.
        - exists (callback_events k vw). split; [done|].
          by apply events_of_callback_events_ne. }
      exists evs. split; [done|]. left. split; [done|].
      intros vw'. rewrite (step_entry_ne o k key t) by done.
      intros Hvw'. by exists vw'.
  - destruct o as [| | | | | | | | |nows]; simpl in Ho; try done; simpl.
    + exists (removal_events t (visit order (m t))).
      split; [apply Range_remove_fired|].
      assert (entry (Flush order t) key = None) as Hgone.
      { apply entry_None. by rewrite Flush_m. }
      destruct (entry t key) as [vw|] eqn:Hvw.
      * right. left. exists vw. split_and!; try done.
        apply entry_Some in Hvw as (p & Hm & <-).
        apply events_of_removal_present; [apply visit_NoDup|by apply visit_elem].
      * left. split; [|by rewrite Hgone].
        apply events_of_removal_absent.
        intros ([key' p] & -> & Hin%visit_elem)%list_elem_of_fmap.
        apply entry_None in Hvw. simpl in *. congruence.
    + exists []. rewrite app_nil_r. split; [done|]. left. split; [done|].
      intros vw' Hvw'. by exists vw'.
    + destruct (cleanup_effect nows t) as (evs & Hf & Hexp & Hunexp & Habs).
      exists evs. split; [done|].
      destruct (entry t key) as [vw|] eqn:Hvw.
      * destruct (expired_or_not (nows key) vw) as [Hv|Hv].
        -- destruct (Hexp key vw Hvw Hv) as [He Hevs]. right. left. by exists vw.
        -- destruct (Hunexp key vw Hvw Hv) as [He Hevs]. left. split; [done|].
           rewrite He. intros vw' [= <-]. by exists vw.
      * destruct (Habs key Hvw) as [He Hevs]. left. split; [done|].
        by rewrite He.
Qed.

Lemma length_callback_events key vw t :
  entry t key = Some vw →
  Z.of_nat (length (callback_events key vw)) = pending key t.
Proof.
  intros Hvw. unfold pending, callback_events. rewrite Hvw.
  by destruct (cb vw).
Qed.

Lemma pending_bounds key t : 0 ≤ pending key t ≤ 1.
Proof.
  unfold pending. destruct (entry t key) as [vw|]; [|lia].
  destruct (cb vw); lia.
Qed.

Lemma step_calls o key t :
  separated t →
  calls key (step pick order o t) + pending key (step pick order o t) ≤
    calls key t + pending key t + (if decide (sets_callback key o) then 1 else 0).
Proof.
  intros Hsep. destruct (step_key_cases o key t Hsep) as (evs & Hf & Hcases).
  assert (calls key (step pick order o t) =
          calls key t + Z.of_nat (length (events_of key evs))) as ->.
  { unfold calls. rewrite Hf, events_of_app, length_app. lia. }
  pose proof (pending_bounds key t) as Hb.
  destruct Hcases as [[-> Hkept]|[(vw & Hvw & -> & Hgone)
    |(now & now' & value & d & cbs & -> & Hnew & Hevs)]].
  - assert (pending key (step pick order o t) ≤ pending key t) as Hle.
    { unfold pending at 1. destruct (entry (step pick order o t) key) as [vw'|];
        [|lia].
      destruct (Hkept vw' eq_refl) as (vw & Hvw & _ & Hcb).
      unfold pending. rewrite Hvw, Hcb. lia. }
    simpl. case_decide; lia.
  - assert (pending key (step pick order o t) = 0) as ->.
    { unfold pending. by rewrite Hgone. }
    rewrite (length_callback_events key vw t Hvw). case_decide; lia.
  - assert (Z.of_nat (length (events_of key evs)) ≤ pending key t) as Hle.
    { destruct Hevs as [->|(vw & Hvw & ->)]; [simpl; lia|].
      rewrite (length_callback_events key vw t Hvw). lia. }
    assert (pending key (step pick order (OpSet now now' key value d cbs) t) =
            match cb_arg cbs with Some _ => 1 | None => 0 end) as ->.
    { unfold pending. by rewrite Hnew. }
    destruct (cb_arg cbs) as [f|] eqn:Hcb.
    + rewrite decide_True; [lia|]. split; [done|]. rewrite Hcb. by eexists.
    + case_decide; lia.
Qed.

Lemma callback_Sets_cons key o ops :
  callback_Sets key (o :: ops) =
    (if decide (sets_callback key o) then 1 else 0) + callback_Sets key ops.
Proof.
  unfold callback_Sets. rewrite filter_cons.
  destruct (decide (sets_callback key o)); cbn [length]; lia.
Qed.

Lemma run_calls ops key t :
  separated t →
  calls key (run pick order ops t) + pending key (run pick order ops t) ≤
    calls key t + pending key t + callback_Sets key ops.
Proof.
  revert t. induction ops as [|o ops IH]; intros t Hsep.
  - unfold callback_Sets. simpl. lia.
  - simpl. rewrite callback_Sets_cons.
    pose proof (IH (step pick order o t) (separated_step pick order o t Hsep)).
    pose proof (step_calls o key t Hsep). lia.
Qed.

(** X13. A callback is called at most once for each [Set] that was given
    it: after any sequence of operations on a new map, the number of calls
    made for a key, plus one if the key still has an entry with a callback,
    is at most the number of calls of [Set] with that key and a callback.
    In particular nothing is ever called for a key which no [Set] gave a
    callback. *)
Theorem callback_called_at_most_once ops key :
  let t := run pick order ops New_store in
  calls key t + pending key t ≤ callback_Sets key ops ∧
  calls key t ≤ callback_Sets key ops ∧
  (callback_Sets key ops = 0 → events_of key (fired t) = []).
Proof.
  intros t. pose proof (run_calls ops key New_store separated_New) as Hle.
  fold t in Hle. pose proof (pending_bounds key t) as Hb.
  assert (calls key (New_store : timedMap K V) = 0) as Hc0 by done.
  assert (pending key (New_store : timedMap K V) = 0) as Hp0 by done.
  rewrite Hc0, Hp0 in Hle. split_and!; [lia..|].
  intros Hzero. unfold calls in Hle.
  destruct (events_of key (fired t)); [done|]. simpl in Hle. lia.
Qed.

Lemma elem_of_callback_events e key vw :
  e ∈ callback_events key vw →
  ∃ f, cb vw = Some f ∧ e = Fired key f (val vw).
Proof.
  unfold callback_events. destruct (cb vw) as [f|].
  - intros ->%list_elem_of_singleton. by exists f.
  - by intros ?%elem_of_nil.
Qed.

Lemma all_set_by_step ops o t :
  separated t → all_set_by ops t →
  all_set_by (ops ++ [o]) (step pick order o t).
Proof.
  intros Hsep [Hfired Hentries]. split.
  - intros e. destruct (step_key_cases o (on_key e) t Hsep) as (evs & -> & Hcases).
    intros [He|He]%elem_of_app.
    { destruct (Hfired e He) as (o' & Ho' & Hset). exists o'.
      split; [apply elem_of_app; by left | done]. }
    assert (e ∈ events_of (on_key e) evs) as Hin.
    { apply list_elem_of_filter. by split. }
    assert (∀ vw, entry t (on_key e) = Some vw →
              e ∈ callback_events (on_key e) vw →
              ∃ o', o' ∈ ops ++ [o] ∧ set_by e o') as Hremoval.
    { intros vw Hvw (f & Hcb & Heq)%elem_of_callback_events.
      destruct (Hentries _ _ _ Hvw Hcb) as (o' & Ho' & Hset). exists o'.
      split; [apply elem_of_app; by left|]. by rewrite Heq at 1. }
    destruct Hcases as [[Hnil _]|[(vw & Hvw & Hevs & _)
      |(? & ? & ? & ? & ? & _ & _ & [Hnil|(vw & Hvw & Hevs)])]].
    + rewrite Hnil in Hin. by apply elem_of_nil in Hin.
    + rewrite Hevs in Hin. by apply (Hremoval vw).
    + rewrite Hnil in Hin. by apply elem_of_nil in Hin.
    + rewrite Hevs in Hin. by apply (Hremoval vw).
  - intros key vw' f Hvw' Hcb.
    destruct (step_key_cases o key t Hsep) as (evs & _ & Hcases).
    destruct Hcases as [[_ Hkept]|[(vw & _ & _ & Hgone)
      |(now & now' & value & d & cbs & -> & Hnew & _)]].
    + destruct (Hkept vw' Hvw') as (vw & Hvw & Hval & Hcb').
      rewrite Hcb' in Hcb. destruct (Hentries _ _ _ Hvw Hcb) as (o' & Ho' & Hset).
      exists o'. split; [apply elem_of_app; by left|]. by rewrite Hval.
    + congruence.
    + exists (OpSet now now' key value d cbs).
      split; [apply elem_of_app; right; left|].
      rewrite Hnew in Hvw'. injection Hvw' as <-. simpl in *. done.
Qed.

Lemma run_snoc ops o t :
  run pick order (ops ++ [o]) t = step pick order o (run pick order ops t).
Proof. unfold run. by rewrite foldl_app. Qed.

Lemma all_set_by_run ops : all_set_by ops (run pick order ops New_store).
Proof.
  induction ops as [|o ops IH] using rev_ind.
  - split; simpl.
    + by intros e ?%elem_of_nil.
    + by intros key vw f ?.
  - rewrite run_snoc. apply all_set_by_step; [apply separated_run | done].
Qed.

(** X14. A callback is only ever called as [Set] was told: after any
    sequence of operations on a new map, every call made is the call of a
    callback that some earlier [Set] was given, for the key of that [Set]
    and on the value given to that [Set]. No callback is called on the
    value of another entry, and none that was not given to a [Set]. *)
Theorem callback_called_as_set ops e :
  e ∈ fired (run pick order ops New_store) →
  ∃ now now' key value d cbs,
    OpSet now now' key value d cbs ∈ ops ∧
    key = on_key e ∧ value = arg e ∧ cb_arg cbs = Some (fired_cb e).
Proof.
  intros He. destruct (all_set_by_run ops) as [Hfired _].
  destruct (Hfired e He) as (o & Ho & Hset).
  destruct o as [now now' key value d cbs| | | | | | | | |]; try done.
  by exists now, now', key, value, d, cbs.
Qed.

(** *** [Flush] and [Remove] *)

Lemma Range_remove_as_Remove nows l t :
  NoDup l.*1 → (∀ key p, (key, p) ∈ l → m t !! key = Some p) →
  Range remove_vw l t = foldl (λ t key, Remove (nows key) key t) t l.*1.
Proof.
  revert t. induction l as [|[key p] l IH]; intros t Hnd Hl; [done|].
  rewrite fmap_cons in Hnd. apply NoDup_cons in Hnd as [Hnotin Hnd].
  cbn [Range foldl fmap list_fmap fst snd].
  rewrite (Remove_present _ _ _ p) by (apply Hl; left).
  apply IH; [done|]. intros key' p' Hin.
  rewrite remove_vw_m, lookup_delete_ne; [apply Hl; by right|].
  intros ->. apply Hnotin, list_elem_of_fmap. by exists (key', p').
Qed.

(** X15. [Flush()] does what [Remove(key)] does for each key of the map in
    turn, in the order in which [Range] visits them, whatever the clock
    shows at each [Remove]; the keys visited are the keys of the map, each
    of them once. *)
Theorem Flush_is_Remove_of_every_key nows t :
  Flush order t =
    foldl (λ t key, Remove (nows key) key t) t (visit order (m t)).*1 ∧
  NoDup (visit order (m t)).*1 ∧
  (∀ key, key ∈ (visit order (m t)).*1 ↔ is_Some (entry t key)).
Proof.
  split_and!.
  - apply Range_remove_as_Remove; [apply visit_NoDup|].
    intros ??. apply visit_elem.
  - apply visit_NoDup.
  - intros key. rewrite list_elem_of_fmap. split.
    + intros ([key' p] & -> & Hin%visit_elem). exists (deref t p).
      apply entry_Some. by exists p.
    + intros [vw (p & Hm & _)%entry_Some]. exists (key, p).
      split; [done|]. by apply visit_elem.
Qed.

End coverage.

(** * Further properties of the cleaner *)

Lemma deliver_Some (i : nat) (msg : message) (s s' : cleaner) :
  deliver i msg s = Some s' →
  ∃ c, cycles s !! i = Some c ∧ returned c = false ∧
    receivable msg c = true ∧
    s' = {| cleanupRunning := cleanupRunning s;
            cycles := <[i := for_turn msg c]> (cycles s) |}.
Proof.
  unfold deliver. destruct (cycles s !! i) as [c|]; [|done].
  destruct (returned c) eqn:Hret; [done|].
  destruct (receivable msg c) eqn:Hrec; [|done]. simpl. intros [= <-].
  exists c. split_and!; try done. by rewrite for_turn_returned, Hret.
Qed.

Lemma deliver_is_Some (i : nat) (msg : message) (s : cleaner) (c : cycle) :
  cycles s !! i = Some c → returned c = false → receivable msg c = true →
  is_Some (deliver i msg s).
Proof. intros Hi Hret Hrec. unfold deliver. by rewrite Hi, Hret, Hrec. Qed.

Lemma all_cycling_deliver (i : nat) (msg : message) (s s' : cleaner) :
  deliver i msg s = Some s' →
  all_cycling s → all_cycling s' ∧ length (cycles s') = length (cycles s).
Proof.
  intros (c & Hi & Hret & _ & ->)%deliver_Some [Hrun Hall]. simpl.
  split; [split; [done|]|apply length_insert].
  apply Forall_insert; [done|]. by rewrite for_turn_returned.
Qed.

Lemma all_cycling_StartCleaner (i : nat) (s s' : cleaner) :
  StartCleaner i s = Some s' →
  all_cycling s → all_cycling s' ∧ length (cycles s') = S (length (cycles s)).
Proof.
  unfold StartCleaner. intros Hstart [Hrun Hall]. rewrite Hrun in Hstart.
  destruct (StopCleaner i s) as [s1|] eqn:Hstop; [|done].
  simpl in Hstart. injection Hstart as <-.
  destruct (all_cycling_deliver i Stop s s1 Hstop) as [[_ Hall1] Hlen]; [done|].
  simpl. rewrite length_app, Hlen. simpl. split; [split; [done|]|lia].
  apply Forall_app. split; [done|]. by apply Forall_singleton.
Qed.

Lemma all_cycling_step (o : cleaner_op) (s s' : cleaner) :
  cleaner_step o s = Some s' → all_cycling s →
  all_cycling s' ∧
  length (cycles s') = ((if is_CStart o then 1 else 0) + length (cycles s))%nat.
Proof.
  destruct o as [i|i|i]; simpl.
  - apply all_cycling_StartCleaner.
  - apply all_cycling_deliver.
  - apply all_cycling_deliver.
Qed.

Lemma Start_calls_cons (o : cleaner_op) (ops : list cleaner_op) :
  Start_calls (o :: ops) = ((if is_CStart o then 1 else 0) + Start_calls ops)%nat.
Proof.
  unfold Start_calls. rewrite filter_cons.
  destruct (decide (is_CStart o = true)) as [Ho|Ho].
  - by rewrite Ho.
  - by destruct (is_CStart o).
Qed.

Lemma all_cycling_run (ops : list cleaner_op) (s s' : cleaner) :
  cleaner_run ops s = Some s' → all_cycling s →
  all_cycling s' ∧
  length (cycles s') = (Start_calls ops + length (cycles s))%nat.
Proof.
  revert s. induction ops as [|o ops IH]; intros s Hrun Hs.
  - injection Hrun as <-. by split.
  - simpl in Hrun. destruct (cleaner_step o s) as [s1|] eqn:Hstep; [|done].
    simpl in Hrun. destruct (all_cycling_step o s s1 Hstep Hs) as [Hs1 Hlen1].
    destruct (IH s1 Hrun Hs1) as [Hs' Hlen]. split; [done|].
    rewrite Hlen, Hlen1, Start_calls_cons. lia.
Qed.

(** X11. Whatever calls of [StartCleaner] and [StopCleaner] and whatever
    ticks follow [New]: no goroutine running [cleanupCycle] ever returns,
    [cleanupRunning] stays [true], and every call of [StartCleaner] adds a
    goroutine to those there are, so that their number is one more than the
    number of these calls. As all of them keep receiving from
    [cStopCleanup], a call of [StopCleaner] always finds a receiver: it does
    not block. *)
Theorem cleanupCycle_goroutines_pile_up (ops : list cleaner_op) (s : cleaner) :
  New_cleaner ≫= cleaner_run ops = Some s →
  cleanupRunning s = true ∧
  Forall (λ c, returned c = false) (cycles s) ∧
  length (cycles s) = S (Start_calls ops) ∧
  (∀ i, (i < length (cycles s))%nat → is_Some (StopCleaner i s)) ∧
  (∀ i, is_Some (StopCleaner i s) → is_Some (StartCleaner i s)).
Proof.
  change New_cleaner with
    (Some {| cleanupRunning := true; cycles := [new_cycle] |}).
  simpl. intros Hrun.
  destruct (all_cycling_run ops _ s Hrun) as [[Hflag Hall] Hlen].
  { split; [done|]. by apply Forall_singleton. }
  split_and!; try done.
  - rewrite Hlen. simpl. lia.
  - intros i [c Hi]%lookup_lt_is_Some_2. apply (deliver_is_Some i Stop s c Hi).
    + by apply (Forall_lookup_1 _ _ _ _ Hall Hi).
    + done.
  - intros i [s1 Hs1]. unfold StartCleaner. rewrite Hflag, Hs1. by eexists.
Qed.

Lemma running_tickers_insert (l : list cycle) (i : nat) (c c' : cycle) :
  l !! i = Some c →
  (length (filter (λ c, ticker_running c = true) (<[i := c']> l)) +
     (if ticker_running c then 1 else 0) =
   length (filter (λ c, ticker_running c = true) l) +
     (if ticker_running c' then 1 else 0))%nat.
Proof.
  intros Hi. rewrite insert_take_drop by (by eapply lookup_lt_Some).
  rewrite <-(take_drop_middle l i c Hi) at 3.
  rewrite !filter_app, !filter_cons, !length_app.
  destruct (ticker_running c), (ticker_running c'); simpl; lia.
Qed.

(** X12. A call of [StopCleaner] stops the ticker of the one goroutine that
    receives the signal, and of no other: the tickers of the other
    goroutines are as before. Which goroutine receives is not decided by
    the program once there are several; when it is one whose ticker is
    stopped already, no ticker stops. [StartCleaner] on a running cleaner
    does the same and then starts one more ticker, so the number of tickers
    that run does not go down, and goes up when the signal went to a
    goroutine whose ticker was stopped already. *)
Theorem StopCleaner_stops_one_ticker :
  (∀ i s s', StopCleaner i s = Some s' →
     (∀ j, j ≠ i → cycles s' !! j = cycles s !! j) ∧
     ∃ c, cycles s !! i = Some c ∧
       (running_tickers s' + (if ticker_running c then 1 else 0) =
        running_tickers s)%nat) ∧
  (∀ i s s', cleanupRunning s = true → StartCleaner i s = Some s' →
     ∃ c, cycles s !! i = Some c ∧
       (running_tickers s' + (if ticker_running c then 1 else 0) =
        running_tickers s + 1)%nat).
Proof.
  assert (∀ i s s', StopCleaner i s = Some s' →
     (∀ j, j ≠ i → cycles s' !! j = cycles s !! j) ∧
     ∃ c, cycles s !! i = Some c ∧
       (running_tickers s' + (if ticker_running c then 1 else 0) =
        running_tickers s)%nat) as Hstop.
  { intros i s s' (c & Hi & Hret & _ & ->)%deliver_Some. simpl. split.
    - intros j Hne. by apply list_lookup_insert_ne.
    - exists c. split; [done|]. unfold running_tickers. simpl.
      rewrite (running_tickers_insert _ i c _ Hi). simpl. lia. }
  split; [done|].
  intros i s s' Hflag Hstart. unfold StartCleaner in Hstart.
  rewrite Hflag in Hstart.
  destruct (StopCleaner i s) as [s1|] eqn:Hs1; [|done].
  simpl in Hstart. injection Hstart as <-.
  destruct (Hstop i s s1 Hs1) as (_ & c & Hi & Hcount).
  exists c. split; [done|]. unfold running_tickers in *. simpl.
  rewrite filter_app, length_app. simpl. lia.
Qed.

(** * The further properties on the example states *)

(** X2 on [one_entry]: at time 5, [SetExpire("a", 2)] read at time 6 sets
    the expiry to 8. *)
Lemma SetExpire_resets_expiry_example :
  ∃ t', SetExpire 5 6 "a" 2 one_entry = (None, t') ∧
    entry t' "a" = Some {| val := Dyn 1; exp := 6 + 2; cb := Some 7%nat |} ∧
    GetExpires 8 "a" t' = ((6 + 2, None), t').
Proof.
  destruct (SetExpire_resets_expiry 5 6 "a" 2 one_entry
              {| val := Dyn 1; exp := 10; cb := Some 7%nat |})
    as (t' & Hset & Hentry & _ & _ & _ & _ & Hget & _).
  - vm_compute. reflexivity.
  - unfold unexpired. simpl. lia.
  - exists t'. split_and!; [done..|]. apply Hget. lia.
Defined.

(** X3 on [one_entry]: [Refresh("a", 5)] and [Refresh("a", -5)] give back
    [one_entry]. *)
Lemma Refresh_composes_example :
  (Refresh 6 "a" (-5) (Refresh 5 "a" 5 one_entry).2).2 = one_entry.
Proof.
  apply (Refresh_composes 5 6 "a" 5 (-5) one_entry
           {| val := Dyn 1; exp := 10; cb := Some 7%nat |}).
  - vm_compute. reflexivity.
  - unfold unexpired. simpl. lia.
  - simpl. lia.
  - reflexivity.
  - exact (separated_run pick_first in_map_order
             [OpSet 0 0 "a" (Dyn 1) 10 [Some 7%nat]]).
Defined.

(** X6 after [sets_and_reads]: [Refresh("b", 5)] leaves "a" as it is. *)
Lemma other_keys_untouched_example :
  entry (step pick_first in_map_order (OpRefresh 26 "b" 5)
           (run pick_first in_map_order sets_and_reads New_store)) "a" =
    entry (run pick_first in_map_order sets_and_reads New_store) "a".
Proof.
  apply (other_keys_untouched pick_first in_map_order sets_and_reads
           (OpRefresh 26 "b" 5) "b" "a").
  - reflexivity.
  - discriminate.
Defined.

(** X8 after [sets_and_reads]: "c" was never set. *)
Lemma key_never_set_is_absent_example :
  GetValue 30 "c" (run pick_first in_map_order sets_and_reads New_store) =
    (Nil, run pick_first in_map_order sets_and_reads New_store).
Proof.
  apply (key_never_set_is_absent pick_first in_map_order sets_and_reads "c" 30).
  unfold sets_and_reads.
  repeat (apply Forall_cons; split; [intros [_ Hk]; simpl in Hk; discriminate|]).
  apply Forall_nil_2.
Defined.

(** X9 after [sets_and_reads]: four operations, two calls of [Set]. *)
Lemma Size_bounds_example :
  0 ≤ Size (run pick_first in_map_order sets_and_reads New_store) ≤ 2.
Proof.
  apply (Size_bounds pick_first in_map_order sets_and_reads).
  vm_compute. reflexivity.
Defined.

(** X11 after [restarts]: three goroutines, none of which has returned. *)
Lemma cleanupCycle_goroutines_pile_up_example :
  ∃ s, New_cleaner ≫= cleaner_run restarts = Some s ∧
    cleanupRunning s = true ∧ length (cycles s) = 3%nat.
Proof.
  eexists. split; [vm_compute; reflexivity|].
  match goal with
  | |- cleanupRunning ?s = _ ∧ _ =>
      destruct (cleanupCycle_goroutines_pile_up restarts s)
        as (Hflag & _ & Hlen & _); [vm_compute; reflexivity|]
  end.
  exact (conj Hflag Hlen).
Defined.

(** X12 after [New], [StartCleaner] and a second [StartCleaner] whose signal
    the first goroutine receives again: two tickers run. *)
Lemma StopCleaner_stops_one_ticker_example :
  ∃ s s', New_cleaner ≫= StartCleaner 0 = Some s ∧
    StartCleaner 0 s = Some s' ∧
    running_tickers s = 1%nat ∧ running_tickers s' = 2%nat.
Proof.
  eexists _, _. split; [vm_compute; reflexivity|].
  split; [vm_compute; reflexivity|]. split; [vm_compute; reflexivity|].
  match goal with
  | |- running_tickers ?s' = _ =>
      destruct (proj2 StopCleaner_stops_one_ticker 0%nat
                  {| cleanupRunning := true;
                     cycles := [{| ticker_running := false; cleanups := 0;
                                   returned := false |}; new_cycle] |}
                  s' eq_refl eq_refl) as (c & Hc & Hcount)
  end.
  injection Hc as <-. simpl in Hcount. vm_compute in Hcount |- *. lia.
Defined.

(** X14 after [sets_and_reads]: the one call made is the call of [f7] on 1,
    as the first [Set] said. *)
Lemma callback_called_as_set_example :
  fired (run pick_first in_map_order sets_and_reads New_store) =
    [Fired "a" 7%nat (Dyn 1)] ∧
  ∃ now now' key value d cbs,
    OpSet now now' key value d cbs ∈ sets_and_reads ∧
    key = "a" ∧ value = Dyn 1 ∧ cb_arg cbs = Some 7%nat.
Proof.
  split; [vm_compute; reflexivity|].
  apply (callback_called_as_set pick_first in_map_order sets_and_reads
           (Fired "a" 7%nat (Dyn 1))).
  vm_compute. left.
Defined.
